(** * The driven, damped pendulum of [08_Chaotic_Pendulum]

    A shallow embedding of the numerical core of the notebook: the
    semi-implicit Euler integrator [euler] and the loop that collects the
    in-phase (stroboscopic) indices [inPhase].

    Conventions of the embedding.
    - A float is idealised as a real number ([R]): rounding, overflow and
      NaN are not modelled.  The one place where float arithmetic leaves
      the reals, a division by zero, is modelled as the code has it: Python
      float division raises [ZeroDivisionError]; a division whose
      denominator is a numpy scalar yields nan or inf, and [int] of those
      raises [ValueError] or [OverflowError].
    - A numpy array of floats is a [list R] (the time grid is an array of
      floats, and so are the arrays [np.zeros_like] makes from it); reading
      is stdpp's lookup and writing is stdpp's insert, both guarded by the
      bounds check that makes Python raise [IndexError].
    - A raised exception is the [Raise] branch of [result].
    - The unbounded [while True] loop takes fuel; running out of fuel is a
      third outcome, distinct from a result and from an exception. *)

From Stdlib Require Import Reals Lra ZArith Lia Sorted.
From stdpp Require Import base list.

Open Scope R_scope.

(** ** Exceptions and the error monad *)

Inductive exn : Set :=
| IndexError
| ZeroDivisionError
| ValueError
| OverflowError.

Inductive result (A : Type) : Type :=
| Ok (a : A)
| Raise (e : exn).

Arguments Ok {A} a.
Arguments Raise {A} e.

#[global] Instance result_ret : MRet result := λ A a, Ok a.

#[global] Instance result_bind : MBind result := λ A B k r,
  match r with
  | Ok a => k a
  | Raise e => Raise e
  end.

(** ** Arrays of floats *)

Abbreviation array := (list R).

(** [a[i]] for a non-negative index. *)
Definition getitem (a : array) (i : nat) : result R :=
  match a !! i with
  | Some x => Ok x
  | None => Raise IndexError
  end.

(** [a[i] = v] for a non-negative index. *)
Definition setitem (a : array) (i : nat) (v : R) : result array :=
  if (i <? length a)%nat then Ok (<[i := v]> a) else Raise IndexError.

(** [np.zeros_like(t)] *)
Definition zeros_like (t : array) : array := replicate (length t) 0.

(** [x / y] on Python floats. *)
Definition py_div (x y : R) : result R :=
  if Req_dec_T y 0 then Raise ZeroDivisionError else Ok (x / y).

(** [for n in range(k): s = body(n, s)] *)
Fixpoint for_loop {S : Type} (ns : list nat) (body : nat → S → result S)
    (s : S) : result S :=
  match ns with
  | [] => Ok s
  | n :: ns' => s' ← body n s; for_loop ns' body s'
  end.

Definition range (k : nat) : list nat := seq 0 k.

(** ** The integrator *)

Section Integrator.

(** [scipy.constants.g], a module-level constant of the notebook. *)
Variable g : R.

(** The body of the [for] loop of [euler]; the state is the pair of arrays
    [(θ, ω)], mutated in place by the source. *)
Definition euler_body (t : array) (FD ℓ γ ΩD Δt : R) (n : nat)
    (s : array * array) : result (array * array) :=
  let '(θ, ω) := s in
  (* ω[n+1] = ω[n] + (-(g/ℓ)*np.sin(θ[n]) - γ*ω[n] + FD*np.sin(ΩD*t[n]))*Δt *)
  ωn ← getitem ω n;
  q ← py_div g ℓ;
  θn ← getitem θ n;
  ωn' ← getitem ω n;
  tn ← getitem t n;
  ω ← setitem ω (n + 1)
        (ωn + (- q * sin θn - γ * ωn' + FD * sin (ΩD * tn)) * Δt);
  (* θ[n+1] = θ[n] + ω[n+1]*Δt *)
  θn ← getitem θ n;
  ωn1 ← getitem ω (n + 1);
  θ ← setitem θ (n + 1) (θn + ωn1 * Δt);
  (* if θ[n+1] < -π: θ[n+1] += 2.0*π *)
  x ← getitem θ (n + 1);
  θ ← (if Rlt_dec x (- PI)
       then y ← getitem θ (n + 1); setitem θ (n + 1) (y + 2 * PI)
       else Ok θ);
  (* if θ[n+1] >= π: θ[n+1] -= 2.0*π *)
  x ← getitem θ (n + 1);
  θ ← (if Rge_dec x PI
       then y ← getitem θ (n + 1); setitem θ (n + 1) (y - 2 * PI)
       else Ok θ);
  Ok (θ, ω).

Definition euler (t : array) (FD ℓ θ0 ω0 γ ΩD : R) : result (array * array) :=
  (* Δt = t[1]-t[0] *)
  t1 ← getitem t 1;
  t0 ← getitem t 0;
  let Δt := t1 - t0 in
  (* ω,θ = np.zeros_like(t),np.zeros_like(t) *)
  let ω := zeros_like t in
  let θ := zeros_like t in
  (* θ[0],ω[0] = θ0,ω0 *)
  θ ← setitem θ 0 θ0;
  ω ← setitem ω 0 ω0;
  for_loop (range (length t - 1)) (euler_body t FD ℓ γ ΩD Δt) (θ, ω).

End Integrator.

(** The value the two conditionals leave in [θ[n+1]], as a function of the
    value [x] first stored there. *)
Definition wrap (x : R) : R :=
  let y := if Rlt_dec x (- PI) then x + 2 * PI else x in
  if Rge_dec y PI then y - 2 * PI else y.

(** [a[i]] read where the index is known to be in range. *)
Definition at_ (a : array) (i : nat) : R := nth i a 0.

(** ** The in-phase (stroboscopic) indices *)

(** What a float expression evaluates to once a division by a numpy zero is
    possible: a real number, an infinity or a nan. *)
Inductive xfloat : Type :=
| Fin (x : R)
| Inf
| NaN.

(** [x / y] where [y] is a numpy scalar: a zero denominator raises nothing
    and yields nan (for a zero numerator) or an infinity. *)
Definition np_div (x y : R) : xfloat :=
  if Req_dec_T y 0 then (if Req_dec_T x 0 then NaN else Inf) else Fin (x / y).

(** [a + b] for a finite [b]. *)
Definition xadd (a : xfloat) (b : R) : xfloat :=
  match a with
  | Fin x => Fin (x + b)
  | Inf => Inf
  | NaN => NaN
  end.

(** Truncation toward zero. *)
Definition trunc (x : R) : Z := if Rle_dec 0 x then Zfloor x else Zceil x.

(** [int(a)] *)
Definition py_int (a : xfloat) : result Z :=
  match a with
  | Fin x => Ok (trunc x)
  | Inf => Raise OverflowError
  | NaN => Raise ValueError
  end.

(** How a run of the [while True] loop ends within the fuel given. *)
Inductive outcome (A : Type) : Type :=
| Done (a : A)
| Failed (e : exn)
| OutOfFuel.

Arguments Done {A} a.
Arguments Failed {A} e.
Arguments OutOfFuel {A}.

(** [m = int(2.0*π*n/(longt[1]*ΩD) + 0.5)] *)
Definition inPhase_index (longt : array) (ΩD : R) (n : nat) : result Z :=
  t1 ← getitem longt 1;
  py_int (xadd (np_div (2 * PI * INR n) (t1 * ΩD)) 0.5).

(** The loop, entered with the counter [n] and the list [inPhase] built so
    far; one unit of fuel per iteration. *)
Fixpoint inPhase_loop (fuel : nat) (longt : array) (ΩD : R) (n : nat)
    (inPhase : list Z) : outcome (list Z) :=
  match fuel with
  | O => OutOfFuel
  | S fuel' =>
      match inPhase_index longt ΩD n with
      | Raise e => Failed e
      | Ok m =>
          if ((1 <? m) && (m <? Z.of_nat (length longt)))%Z
          then inPhase_loop fuel' longt ΩD (n + 1) (inPhase ++ [m])
          else if (m >=? Z.of_nat (length longt))%Z
          then Done inPhase
          else inPhase_loop fuel' longt ΩD (n + 1) inPhase
      end
  end.

(** [inPhase = []; n = 0; while True: ...] *)
Definition inPhase (fuel : nat) (longt : array) (ΩD : R) : outcome (list Z) :=
  inPhase_loop fuel longt ΩD 0 [].

(** The index formula with rounding written as a floor, for a divisor [d]
    of the phase: [floor(2πn/(d·Ω_D) + 0.5)]. *)
Definition phase_index (d ΩD : R) (n : nat) : Z :=
  Zfloor (2 * PI * INR n / (d * ΩD) + 0.5).

(** The indices [phase_index d ΩD n] with [1 < m < len], for [n = 0 .. K-1]. *)
Definition strobe (d ΩD : R) (len : nat) (K : nat) : list Z :=
  List.filter (λ m, (1 <? m) && (m <? Z.of_nat len))%Z
    (map (phase_index d ΩD) (seq 0 K)).

(** [K] is the first [n] whose index reaches the end of the grid. *)
Definition first_overflow (d ΩD : R) (len : nat) (K : nat) : Prop :=
  (Z.of_nat len ≤ phase_index d ΩD K)%Z ∧
  ∀ n, (n < K)%nat → (phase_index d ΩD n < Z.of_nat len)%Z.

(** The sampler as the specification words it: the divisor is the grid
    spacing [t[1] − t[0]]. *)
Definition spec_strobe (t : array) (ΩD : R) (K : nat) : list Z :=
  strobe (at_ t 1 - at_ t 0) ΩD (length t) K.

Definition spec_first_overflow (t : array) (ΩD : R) (K : nat) : Prop :=
  first_overflow (at_ t 1 - at_ t 0) ΩD (length t) K.

(** A grid is uniform with spacing [Δt]. *)
Definition uniform (t : array) (Δt : R) : Prop :=
  ∀ n, (n + 1 < length t)%nat → at_ t (n + 1) - at_ t n = Δt.

(** A uniform grid that starts at zero: [t[k] = k·Δt]. *)
Definition uniform_from_zero (t : array) (Δt : R) : Prop :=
  ∀ k, (k < length t)%nat → at_ t k = INR k * Δt.

(** [θ[n] ∈ [−π, π)] *)
Definition in_range (x : R) : Prop := - PI <= x < PI.

(** [scipy.constants.g], the standard acceleration of gravity in m/s², at
    which the concrete runs below are taken. *)
Definition g_std : R := 9.80665.

(** The two updates of step [n], read off the returned arrays: the velocity
    from the old angle, then the angle from the new velocity. *)
Definition step_ok (g : R) (t : array) (FD ℓ γ ΩD Δt : R) (θ ω : array)
    (n : nat) : Prop :=
  at_ ω (n + 1) =
    at_ ω n + Δt * (- (g / ℓ) * sin (at_ θ n) - γ * at_ ω n
                    + FD * sin (ΩD * at_ t n)) ∧
  at_ θ (n + 1) = wrap (at_ θ n + Δt * at_ ω (n + 1)).

(** The loop invariant of [euler] before iteration [k]. *)
Definition euler_inv (g : R) (t : array) (FD ℓ θ0 ω0 γ ΩD Δt : R) (k : nat)
    (s : array * array) : Prop :=
  length s.1 = length t ∧ length s.2 = length t ∧
  at_ s.1 0 = θ0 ∧ at_ s.2 0 = ω0 ∧
  ∀ n, (n < k)%nat → step_ok g t FD ℓ γ ΩD Δt s.1 s.2 n.

(** ** The undriven pendulum of the first cell *)

(** The body of the first cell's loop: the angle from the old velocity,
    then the velocity from the new angle; the angle is not wrapped. *)
Definition euler_cromer_body (g ℓ Δt : R) (n : nat) (s : array * array) :
    result (array * array) :=
  let '(θ, ω) := s in
  (* θ[n+1] = θ[n] + ω[n]*Δt *)
  θn ← getitem θ n;
  ωn ← getitem ω n;
  θ ← setitem θ (n + 1) (θn + ωn * Δt);
  (* ω[n+1] = ω[n] -(g/ℓ)*np.sin(θ[n+1])*Δt *)
  ωn ← getitem ω n;
  q ← py_div g ℓ;
  θn1 ← getitem θ (n + 1);
  ω ← setitem ω (n + 1) (ωn - q * sin θn1 * Δt);
  Ok (θ, ω).

(** The first cell's integration, with its constants [ℓ = 0.25],
    [Δt = 0.001] and [θ[0] = π/4.0] taken as the parameters [ℓ], [Δt] and
    [θinit]. *)
Definition euler_cromer (g : R) (t : array) (ℓ Δt θinit : R) :
    result (array * array) :=
  (* θ,ω = np.zeros_like(t),np.zeros_like(t) *)
  let θ := zeros_like t in
  let ω := zeros_like t in
  (* θ[0] = π/4.0 *)
  θ ← setitem θ 0 θinit;
  for_loop (range (length t - 1)) (euler_cromer_body g ℓ Δt) (θ, ω).

(** ** Indexing with integers and with lists of integers *)

(** [a[i]] for a Python integer: a negative index counts from the end. *)
Definition getitem_int (a : array) (i : Z) : result R :=
  if (0 <=? i)%Z then getitem a (Z.to_nat i)
  else if (- Z.of_nat (length a) <=? i)%Z
       then getitem a (Z.to_nat (Z.of_nat (length a) + i))
       else Raise IndexError.

(** [a[idx]] for a list of integers [idx]. *)
Fixpoint take_indices (a : array) (idx : list Z) : result array :=
  match idx with
  | [] => Ok []
  | i :: idx' => x ← getitem_int a i; xs ← take_indices a idx'; Ok (x :: xs)
  end.

(** [inPhaset = longt[inPhase]] *)
Definition inPhaset (longt : array) (inPhase : list Z) : result array :=
  take_indices longt inPhase.

(** ** The divergence of two runs *)

(** [a - b] on one-dimensional arrays: equal lengths, or one of length one
    that is broadcast; otherwise numpy raises [ValueError]. *)
Definition np_sub (a b : array) : result array :=
  if decide (length a = length b) then Ok (zip_with Rminus a b)
  else if decide (length b = 1%nat) then Ok (map (λ x, x - at_ b 0) a)
  else if decide (length a = 1%nat) then Ok (map (λ y, at_ a 0 - y) b)
  else Raise ValueError.

(** [np.abs(a)] *)
Definition np_abs (a : array) : array := map Rabs a.

(** One pass of the loop that fills [Δθ], for the driving force [FD]:
    the run from [θ0], the run from [θ0+1.0E-4], and the absolute
    difference of their angles. *)
Definition divergence (g : R) (t : array) (FD ℓ θ0 ω0 γ ΩD : R) :
    result array :=
  (* θ1,ω = euler(t,F[i],*params[0]) *)
  r1 ← euler g t FD ℓ θ0 ω0 γ ΩD;
  (* θ2,ω = euler(t,F[i],*params[1]) *)
  r2 ← euler g t FD ℓ (θ0 + 1.0E-4) ω0 γ ΩD;
  (* np.abs(θ1-θ2) *)
  d ← np_sub r1.1 r2.1;
  Ok (np_abs d).

(** ** The bifurcation table *)

(** A two-dimensional array of floats, kept by columns: [nrows] rows and
    one list per column. *)
Record table : Type := Table { nrows : nat; columns : list array }.

(** [np.zeros([r, c])] *)
Definition np_zeros2 (r c : nat) : table := Table r (replicate c (replicate r 0)).

(** [θ[:,i] = col] for a non-negative [i]: the column index is checked, and
    [col] has the length of a column or is of length one and broadcast. *)
Definition set_column (θ : table) (i : nat) (col : array) : result table :=
  if (i <? length (columns θ))%nat then
    if decide (length col = nrows θ)
    then Ok (Table (nrows θ) (<[i := col]> (columns θ)))
    else if decide (length col = 1%nat)
    then Ok (Table (nrows θ)
               (<[i := replicate (nrows θ) (at_ col 0)]> (columns θ)))
    else Raise ValueError
  else Raise IndexError.

(** [for i,cF in enumerate(F): th,ω = euler(longt,cF,*params);
    θ[:,i] = th[inPhase[10:]]], entered at the counter [i]. *)
Fixpoint sweep (g : R) (longt : array) (ℓ θ0 ω0 γ ΩD : R) (inPhase : list Z)
    (i : nat) (F : list R) (θ : table) : result table :=
  match F with
  | [] => Ok θ
  | cF :: F' =>
      r ← euler g longt cF ℓ θ0 ω0 γ ΩD;
      col ← take_indices r.1 (drop 10 inPhase);
      θ ← set_column θ i col;
      sweep g longt ℓ θ0 ω0 γ ΩD inPhase (i + 1) F' θ
  end.

(** The last computing cell, up to the call that saves the table: nothing
    is computed unless [run] is set. *)
Definition bifurcation (g : R) (run : bool) (longt : array)
    (ℓ θ0 ω0 γ ΩD : R) (inPhase : list Z) (F : list R) :
    result (option table) :=
  if run then
    (* θ = np.zeros([len(inPhase[10:]),len(F)]) *)
    let θ := np_zeros2 (length (drop 10 inPhase)) (length F) in
    θ ← sweep g longt ℓ θ0 ω0 γ ΩD inPhase 0 F θ;
    Ok (Some θ)
  else Ok None.

(** [θ[j, i]] of a table, where both indices are in range. *)
Definition entry (θ : table) (j i : nat) : R := at_ (nth i (columns θ) []) j.

(** The angle advanced over the first [n] steps, in units of [Δt]:
    [ω[1] + … + ω[n]]. *)
Fixpoint advance (ω : array) (n : nat) : R :=
  match n with
  | O => 0
  | S k => advance ω k + at_ ω (k + 1)
  end.

(** The multiples [p·1, …, p·(K−1)] of a period of [p] grid steps. *)
Definition multiples (p K : nat) : list Z :=
  map (λ n, Z.of_nat (p * n)) (seq 1 (K - 1)).

(** The invariant of the first cell's loop before iteration [k]. *)
Definition euler_cromer_inv (g : R) (t : array) (ℓ Δt θinit : R) (k : nat)
    (s : array * array) : Prop :=
  length s.1 = length t ∧ length s.2 = length t ∧
  at_ s.1 0 = θinit ∧ at_ s.2 0 = 0 ∧
  ∀ n, (n < k)%nat →
    at_ s.1 (n + 1) = at_ s.1 n + at_ s.2 n * Δt ∧
    at_ s.2 (n + 1) = at_ s.2 n - g / ℓ * sin (at_ s.1 (n + 1)) * Δt.

(** ** Arrays: reading and writing in range *)

Lemma bind_Ok {A B : Type} (a : A) (k : A → result B) : Ok a ≫= k = k a.
Proof. reflexivity. Qed.

Lemma bind_Raise {A B : Type} (e : exn) (k : A → result B) :
  Raise e ≫= k = Raise e.
Proof. reflexivity. Qed.

Lemma getitem_lt (a : array) (i : nat) :
  (i < length a)%nat → getitem a i = Ok (at_ a i).
Proof.
  intros Hi. unfold getitem, at_.
  destruct (lookup_lt_is_Some_2 a i Hi) as [x Hx].
  rewrite Hx. f_equal. symmetry. now apply nth_lookup_Some.
Qed.

Lemma getitem_ge (a : array) (i : nat) :
  (length a ≤ i)%nat → getitem a i = Raise IndexError.
Proof.
  intros Hi. unfold getitem. now rewrite (lookup_ge_None_2 a i Hi).
Qed.

Lemma setitem_lt (a : array) (i : nat) (v : R) :
  (i < length a)%nat → setitem a i v = Ok (<[i := v]> a).
Proof.
  intros Hi. unfold setitem.
  destruct (Nat.ltb_spec i (length a)) as [_ | Hge]; [reflexivity | lia].
Qed.

Lemma at_insert_eq (a : array) (i : nat) (v : R) :
  (i < length a)%nat → at_ (<[i := v]> a) i = v.
Proof.
  intros Hi. unfold at_. apply nth_lookup_Some.
  now apply list_lookup_insert_eq.
Qed.

Lemma at_insert_ne (a : array) (i j : nat) (v : R) :
  i ≠ j → at_ (<[i := v]> a) j = at_ a j.
Proof.
  intros Hij. unfold at_. rewrite !nth_lookup.
  now rewrite list_lookup_insert_ne.
Qed.

Lemma at_zeros_like (t : array) (i : nat) : at_ (zeros_like t) i = 0.
Proof.
  unfold at_, zeros_like. rewrite nth_lookup.
  destruct (replicate (length t) 0 !! i) as [x|] eqn:E; [|reflexivity].
  now apply lookup_replicate_1 in E as [-> _].
Qed.

(** ** One iteration of the integrator *)

(** Run the binds whose left operand has been evaluated. *)
Ltac run := repeat (rewrite bind_Ok; cbv beta).

Lemma euler_body_eq (g : R) (t : array) (FD ℓ γ ΩD Δt : R) (n : nat)
    (θ ω : array) :
  ℓ ≠ 0 → (n < length t)%nat →
  (n + 1 < length θ)%nat → (n + 1 < length ω)%nat →
  euler_body g t FD ℓ γ ΩD Δt n (θ, ω) =
    Ok (<[(n + 1)%nat := wrap (at_ θ n + (at_ ω n + (- (g / ℓ) * sin (at_ θ n)
                          - γ * at_ ω n + FD * sin (ΩD * at_ t n)) * Δt) * Δt)]> θ,
        <[(n + 1)%nat := at_ ω n + (- (g / ℓ) * sin (at_ θ n) - γ * at_ ω n
                              + FD * sin (ΩD * at_ t n)) * Δt]> ω).
Proof.
  intros Hℓ Ht Hθ Hω. unfold euler_body, py_div.
  destruct (Req_dec_T ℓ 0) as [E | _]; [contradiction|].
  rewrite (getitem_lt ω n) by lia. run.
  rewrite (getitem_lt θ n) by lia. run.
  rewrite (getitem_lt t n) by lia. run.
  rewrite setitem_lt by lia. run.
  rewrite getitem_lt by (rewrite length_insert; lia). run.
  rewrite at_insert_eq by lia.
  rewrite setitem_lt by lia. run.
  rewrite getitem_lt by (rewrite length_insert; lia). run.
  rewrite at_insert_eq by lia.
  unfold wrap.
  destruct (Rlt_dec _ (- PI)) as [Hlt | Hge].
  - run.
    rewrite setitem_lt by (rewrite length_insert; lia). run.
    rewrite list_insert_insert_eq.
    rewrite getitem_lt by (rewrite length_insert; lia). run.
    rewrite at_insert_eq by lia.
    destruct (Rge_dec _ PI); run.
    + rewrite setitem_lt by (rewrite length_insert; lia). run.
      now rewrite list_insert_insert_eq.
    + reflexivity.
  - run.
    rewrite getitem_lt by (rewrite length_insert; lia). run.
    rewrite at_insert_eq by lia.
    destruct (Rge_dec _ PI); run.
    + rewrite setitem_lt by (rewrite length_insert; lia). run.
      now rewrite list_insert_insert_eq.
    + reflexivity.
Qed.

(** An iteration in range re-establishes the invariant for the next one. *)
Lemma euler_body_inv (g : R) (t : array) (FD ℓ θ0 ω0 γ ΩD Δt : R) (k : nat)
    (s : array * array) :
  ℓ ≠ 0 → (k + 1 < length t)%nat →
  euler_inv g t FD ℓ θ0 ω0 γ ΩD Δt k s →
  ∃ s', euler_body g t FD ℓ γ ΩD Δt k s = Ok s' ∧
        euler_inv g t FD ℓ θ0 ω0 γ ΩD Δt (k + 1) s'.
Proof.
  intros Hℓ Hk. destruct s as [θ ω]. unfold euler_inv. cbn [fst snd].
  intros (Lθ & Lω & Hθ0 & Hω0 & Hrec).
  eexists. split.
  { apply euler_body_eq; [assumption | lia | lia | lia]. }
  cbn [fst snd]. rewrite !length_insert.
  repeat split; try assumption.
  - rewrite at_insert_ne by lia. assumption.
  - rewrite at_insert_ne by lia. assumption.
  - destruct (decide (n = k)) as [-> | Hne].
    + rewrite at_insert_eq by lia. rewrite !at_insert_ne by lia. lra.
    + destruct (Hrec n ltac:(lia)) as [Hω _].
      rewrite !at_insert_ne by lia. exact Hω.
  - destruct (decide (n = k)) as [-> | Hne].
    + rewrite !at_insert_eq by lia. rewrite !at_insert_ne by lia.
      f_equal. lra.
    + destruct (Hrec n ltac:(lia)) as [_ Hθ].
      rewrite !at_insert_ne by lia. exact Hθ.
Qed.

(** The [for] loop from iteration [a] on, [k] iterations. *)
Lemma euler_loop_inv (g : R) (t : array) (FD ℓ θ0 ω0 γ ΩD Δt : R) (k : nat) :
  ℓ ≠ 0 →
  ∀ (a : nat) (s : array * array),
    (a + k < length t)%nat →
    euler_inv g t FD ℓ θ0 ω0 γ ΩD Δt a s →
    ∃ s', for_loop (seq a k) (euler_body g t FD ℓ γ ΩD Δt) s = Ok s' ∧
          euler_inv g t FD ℓ θ0 ω0 γ ΩD Δt (a + k) s'.
Proof.
  intros Hℓ. induction k as [| k IH]; intros a s Hak Hinv.
  - exists s. split; [reflexivity|]. now rewrite Nat.add_0_r.
  - destruct (euler_body_inv g t FD ℓ θ0 ω0 γ ΩD Δt a s Hℓ ltac:(lia) Hinv)
      as (s1 & Hbody & Hinv1).
    destruct (IH (a + 1)%nat s1 ltac:(lia) Hinv1) as (s2 & Hloop & Hinv2).
    exists s2. split.
    + cbn [seq for_loop]. rewrite Hbody, bind_Ok.
      now replace (S a) with (a + 1)%nat by lia.
    + now replace (a + S k)%nat with (a + 1 + k)%nat by lia.
Qed.

(** ** The integrator on a grid of at least two points *)

(** With at least two grid points and [ℓ ≠ 0] the integrator returns, and
    the returned arrays satisfy the invariant up to the last step, with
    the step [t[1] − t[0]]. *)
Lemma euler_returns (g : R) (t : array) (FD ℓ θ0 ω0 γ ΩD : R) :
  ℓ ≠ 0 → (2 ≤ length t)%nat →
  ∃ θ ω, euler g t FD ℓ θ0 ω0 γ ΩD = Ok (θ, ω) ∧
         euler_inv g t FD ℓ θ0 ω0 γ ΩD (at_ t 1 - at_ t 0)
           (length t - 1) (θ, ω).
Proof.
  intros Hℓ HN. unfold euler.
  rewrite (getitem_lt t 1) by lia. run.
  rewrite (getitem_lt t 0) by lia. run. cbv zeta.
  assert (Lz : length (zeros_like t) = length t)
    by (unfold zeros_like; apply length_replicate).
  rewrite !setitem_lt by lia. run.
  destruct (euler_loop_inv g t FD ℓ θ0 ω0 γ ΩD (at_ t 1 - at_ t 0)
              (length t - 1) Hℓ 0%nat
              (<[0%nat := θ0]> (zeros_like t), <[0%nat := ω0]> (zeros_like t)))
    as ([θ ω] & Hloop & Hinv).
  - lia.
  - unfold euler_inv. cbn [fst snd]. rewrite !length_insert.
    repeat split; try assumption; try lia.
    + apply at_insert_eq. lia.
    + apply at_insert_eq. lia.
  - exists θ, ω. split; [exact Hloop | exact Hinv].
Qed.

(** With fewer than two grid points the read of [t[1]] raises. *)
Lemma euler_short_grid (g : R) (t : array) (FD ℓ θ0 ω0 γ ΩD : R) :
  (length t < 2)%nat → euler g t FD ℓ θ0 ω0 γ ΩD = Raise IndexError.
Proof.
  intros HN. unfold euler. rewrite (getitem_ge t 1) by lia. reflexivity.
Qed.

(** With [ℓ = 0] an iteration raises at [g/ℓ]. *)
Lemma euler_body_zero_length (g : R) (t : array) (FD γ ΩD Δt : R) (n : nat)
    (θ ω : array) :
  (n < length ω)%nat →
  euler_body g t FD 0 γ ΩD Δt n (θ, ω) = Raise ZeroDivisionError.
Proof.
  intros Hn. unfold euler_body.
  rewrite (getitem_lt ω n) by lia. run.
  unfold py_div. destruct (Req_dec_T 0 0) as [_ | Hne]; [|contradiction].
  reflexivity.
Qed.

(** With a grid of at least two points and [ℓ = 0] the first iteration is
    entered and raises. *)
Lemma euler_zero_length (g : R) (t : array) (FD θ0 ω0 γ ΩD : R) :
  (2 ≤ length t)%nat → euler g t FD 0 θ0 ω0 γ ΩD = Raise ZeroDivisionError.
Proof.
  intros HN. unfold euler.
  rewrite (getitem_lt t 1) by lia. run.
  rewrite (getitem_lt t 0) by lia. run. cbv zeta.
  assert (Lz : length (zeros_like t) = length t)
    by (unfold zeros_like; apply length_replicate).
  rewrite !setitem_lt by lia. run.
  destruct (length t) as [| [| N]] eqn:EN; [lia | lia |].
  replace (S (S N) - 1)%nat with (S N) by lia.
  unfold range. cbn [seq for_loop].
  rewrite euler_body_zero_length by (rewrite length_insert; lia).
  reflexivity.
Qed.

(** A run that returns is a run on at least two points with [ℓ ≠ 0], and
    its arrays satisfy the invariant. *)
Lemma euler_Ok_inv (g : R) (t : array) (FD ℓ θ0 ω0 γ ΩD : R) (θ ω : array) :
  euler g t FD ℓ θ0 ω0 γ ΩD = Ok (θ, ω) →
  (2 ≤ length t)%nat ∧ ℓ ≠ 0 ∧
  euler_inv g t FD ℓ θ0 ω0 γ ΩD (at_ t 1 - at_ t 0) (length t - 1) (θ, ω).
Proof.
  intros Heq.
  assert (HN : (2 ≤ length t)%nat).
  { destruct (le_lt_dec 2 (length t)) as [H | H]; [exact H|].
    rewrite euler_short_grid in Heq by exact H. discriminate. }
  assert (Hℓ : ℓ ≠ 0).
  { intros ->. rewrite euler_zero_length in Heq by exact HN. discriminate. }
  destruct (euler_returns g t FD ℓ θ0 ω0 γ ΩD Hℓ HN)
    as (θ' & ω' & Heq' & Hinv).
  rewrite Heq in Heq'. injection Heq' as -> ->.
  split; [exact HN|]. split; [exact Hℓ | exact Hinv].
Qed.

(** ** The one-shot wrap *)

Lemma wrap_mid (x : R) : - PI <= x < PI → wrap x = x.
Proof.
  intros [Hlo Hhi]. unfold wrap.
  destruct (Rlt_dec x (- PI)) as [H | _]; [lra|].
  destruct (Rge_dec x PI) as [H | _]; [lra | reflexivity].
Qed.

Lemma wrap_low (x : R) : x < - PI → wrap x = x + 2 * PI.
Proof.
  intros Hlo. unfold wrap. pose proof PI_RGT_0 as Hπ.
  destruct (Rlt_dec x (- PI)) as [_ | H]; [|lra].
  destruct (Rge_dec (x + 2 * PI) PI) as [H | _]; [lra | reflexivity].
Qed.

Lemma wrap_high (x : R) : PI <= x → wrap x = x - 2 * PI.
Proof.
  intros Hhi. unfold wrap. pose proof PI_RGT_0 as Hπ.
  destruct (Rlt_dec x (- PI)) as [H | _]; [lra|].
  destruct (Rge_dec x PI) as [_ | H]; [reflexivity | lra].
Qed.

(** A candidate less than [2π] away from the interval is brought back
    into it. *)
Lemma wrap_in_range (x : R) : - 3 * PI < x < 3 * PI → in_range (wrap x).
Proof.
  intros [Hlo Hhi]. unfold in_range.
  destruct (Rlt_dec x (- PI)) as [H1 | H1].
  - rewrite wrap_low by assumption. lra.
  - destruct (Rge_dec x PI) as [H2 | H2].
    + rewrite wrap_high by lra. lra.
    + rewrite wrap_mid by lra. lra.
Qed.

(** ** The index formula *)

Lemma phase_arg_nonneg (d ΩD : R) (n : nat) :
  0 < d * ΩD → 0 <= 2 * PI * INR n / (d * ΩD).
Proof.
  intros Hpos. pose proof PI_RGT_0 as Hπ. pose proof (pos_INR n) as Hn.
  apply Rmult_le_pos.
  - apply Rmult_le_pos; lra.
  - left. now apply Rinv_0_lt_compat.
Qed.

Lemma phase_arg_succ (d ΩD : R) (n : nat) :
  0 < d * ΩD →
  2 * PI * INR (n + 1) / (d * ΩD) =
  2 * PI * INR n / (d * ΩD) + 2 * PI / (d * ΩD).
Proof.
  intros Hpos. rewrite plus_INR. cbn [INR].
  generalize dependent (d * ΩD). intros q Hq. field. lra.
Qed.

Lemma phase_arg_mono (d ΩD : R) (n n' : nat) :
  0 < d * ΩD → (n ≤ n')%nat →
  2 * PI * INR n / (d * ΩD) <= 2 * PI * INR n' / (d * ΩD).
Proof.
  intros Hpos Hle. pose proof PI_RGT_0 as Hπ.
  apply Rmult_le_compat_r.
  - left. now apply Rinv_0_lt_compat.
  - apply Rmult_le_compat_l; [lra|]. now apply le_INR.
Qed.

Lemma phase_index_mono (d ΩD : R) (n n' : nat) :
  0 < d * ΩD → (n ≤ n')%nat → (phase_index d ΩD n ≤ phase_index d ΩD n')%Z.
Proof.
  intros Hpos Hle. unfold phase_index. apply Zfloor_le.
  pose proof (phase_arg_mono d ΩD n n' Hpos Hle). lra.
Qed.

(** When successive phases are at least one grid step apart, successive
    indices differ. *)
Lemma phase_index_succ (d ΩD : R) (n : nat) :
  0 < d * ΩD → 1 <= 2 * PI / (d * ΩD) →
  (phase_index d ΩD n < phase_index d ΩD (n + 1))%Z.
Proof.
  intros Hpos Hc. unfold phase_index.
  rewrite phase_arg_succ by assumption.
  pose proof (Zfloor_addz 1 (2 * PI * INR n / (d * ΩD) + 0.5)) as Hadd.
  assert (Hle : 2 * PI * INR n / (d * ΩD) + 0.5 + 1 <=
                2 * PI * INR n / (d * ΩD) + 2 * PI / (d * ΩD) + 0.5) by lra.
  apply Zfloor_le in Hle. lia.
Qed.

Lemma phase_index_strict_mono (d ΩD : R) (n n' : nat) :
  0 < d * ΩD → 1 <= 2 * PI / (d * ΩD) → (n < n')%nat →
  (phase_index d ΩD n < phase_index d ΩD n')%Z.
Proof.
  intros Hpos Hc Hlt.
  pose proof (phase_index_succ d ΩD n Hpos Hc) as Hs.
  pose proof (phase_index_mono d ΩD (n + 1) n' Hpos ltac:(lia)) as Hm.
  lia.
Qed.

(** The rounded index is within half a step of the exact phase; the
    distance one half is attained when the phase falls midway. *)
Lemma phase_index_near (d ΩD : R) (n : nat) :
  Rabs (IZR (phase_index d ΩD n) - 2 * PI * INR n / (d * ΩD)) <= 1 / 2.
Proof.
  unfold phase_index.
  pose proof (Zfloor_bound (2 * PI * INR n / (d * ΩD) + 0.5)) as [Hlo Hhi].
  apply Rabs_le. lra.
Qed.

(** The index grows without bound. *)
Lemma phase_index_unbounded (d ΩD : R) (len : nat) :
  0 < d * ΩD → ∃ N, (Z.of_nat len ≤ phase_index d ΩD N)%Z.
Proof.
  unfold phase_index. generalize (d * ΩD). intros q Hpos.
  pose proof PI_RGT_0 as Hπ.
  set (r := INR len * q / (2 * PI)).
  exists (Z.to_nat (up r)).
  apply Zfloor_lub. rewrite <- INR_IZR_INZ.
  assert (Hr : r < INR (Z.to_nat (up r))).
  { destruct (archimed r) as [Hup _].
    destruct (Z_lt_le_dec (up r) 0) as [Hneg | Hnn].
    - apply IZR_lt in Hneg. pose proof (pos_INR (Z.to_nat (up r))). lra.
    - rewrite INR_IZR_INZ, Z2Nat.id by assumption. lra. }
  assert (Hq : INR len <= 2 * PI * INR (Z.to_nat (up r)) / q).
  { apply Rmult_le_reg_r with q; [assumption|].
    replace (2 * PI * INR (Z.to_nat (up r)) / q * q)
      with (2 * PI * INR (Z.to_nat (up r))) by (field; lra).
    unfold r in *.
    apply Rmult_lt_compat_r with (r := 2 * PI) in Hr; [|lra].
    replace (INR len * q / (2 * PI) * (2 * PI))
      with (INR len * q) in Hr by (field; lra).
    lra. }
  lra.
Qed.

(** A decidable property that holds somewhere has a least witness. *)
Lemma least_witness (P : nat → Prop) (P_dec : ∀ n, {P n} + {¬ P n}) (N : nat) :
  P N → ∃ K, P K ∧ ∀ n, (n < K)%nat → ¬ P n.
Proof.
  intros HN.
  assert (Hsearch : ∀ M, (∃ K, P K ∧ ∀ n, (n < K)%nat → ¬ P n) ∨
                         (∀ n, (n ≤ M)%nat → ¬ P n)).
  { induction M as [| M [Hfound | Hnone]].
    - destruct (P_dec 0%nat) as [H0 | H0].
      + left. exists 0%nat. split; [exact H0 | intros n Hn; lia].
      + right. intros n Hn. now replace n with 0%nat by lia.
    - now left.
    - destruct (P_dec (S M)) as [HS | HS].
      + left. exists (S M). split; [exact HS|].
        intros n Hn. apply Hnone. lia.
      + right. intros n Hn.
        destruct (decide (n = S M)) as [-> | Hne]; [exact HS|].
        apply Hnone. lia. }
  destruct (Hsearch N) as [Hfound | Hnone]; [exact Hfound|].
  exfalso. exact (Hnone N (Nat.le_refl N) HN).
Qed.

(** Hence some first [n] reaches the end of the grid. *)
Lemma first_overflow_exists (d ΩD : R) (len : nat) :
  0 < d * ΩD → ∃ K, first_overflow d ΩD len K.
Proof.
  intros Hpos. destruct (phase_index_unbounded d ΩD len Hpos) as [N HN].
  destruct (least_witness
              (λ n, (Z.of_nat len ≤ phase_index d ΩD n)%Z)
              (λ n, Z_le_dec _ _) N HN) as (K & HK & Hleast).
  exists K. split; [exact HK|]. intros n Hn.
  specialize (Hleast n Hn). cbv beta in Hleast. lia.
Qed.

(** ** One evaluation of the index expression *)

Lemma trunc_nonneg (x : R) : 0 <= x → trunc x = Zfloor x.
Proof.
  intros Hx. unfold trunc. destruct (Rle_dec 0 x); [reflexivity | lra].
Qed.

(** Truncation of a rounded non-positive phase never exceeds zero. *)
Lemma trunc_half_nonpos (x : R) : x <= 0 → (trunc (x + 0.5) ≤ 0)%Z.
Proof.
  intros Hx. unfold trunc. destruct (Rle_dec 0 (x + 0.5)) as [Hp | Hn].
  - pose proof (Zfloor_bound (x + 0.5)) as [Hlo _].
    assert (H : IZR (Zfloor (x + 0.5)) < 1) by lra.
    apply lt_IZR in H. lia.
  - pose proof (Zceil_bound (x + 0.5)) as [Hlo _].
    assert (H : IZR (Zceil (x + 0.5)) < 1) by lra.
    apply lt_IZR in H. lia.
Qed.

Lemma inPhase_index_short (longt : array) (ΩD : R) (n : nat) :
  (length longt < 2)%nat → inPhase_index longt ΩD n = Raise IndexError.
Proof.
  intros Hlen. unfold inPhase_index.
  rewrite (getitem_ge longt 1) by lia. reflexivity.
Qed.

(** A zero denominator makes the very first phase a nan. *)
Lemma inPhase_index_nan (longt : array) (ΩD : R) :
  (2 ≤ length longt)%nat → at_ longt 1 * ΩD = 0 →
  inPhase_index longt ΩD 0 = Raise ValueError.
Proof.
  intros Hlen Hz. unfold inPhase_index.
  rewrite (getitem_lt longt 1) by lia. run.
  unfold np_div. rewrite Hz.
  destruct (Req_dec_T 0 0) as [_ | H]; [|contradiction].
  destruct (Req_dec_T (2 * PI * INR 0) 0) as [_ | H]; [reflexivity|].
  exfalso. apply H. cbn [INR]. ring.
Qed.

Lemma inPhase_index_fin (longt : array) (ΩD : R) (n : nat) :
  (2 ≤ length longt)%nat → at_ longt 1 * ΩD ≠ 0 →
  inPhase_index longt ΩD n =
  Ok (trunc (2 * PI * INR n / (at_ longt 1 * ΩD) + 0.5)).
Proof.
  intros Hlen Hnz. unfold inPhase_index.
  rewrite (getitem_lt longt 1) by lia. run.
  unfold np_div.
  destruct (Req_dec_T (at_ longt 1 * ΩD) 0) as [H | _]; [contradiction|].
  reflexivity.
Qed.

(** For a positive denominator [int] rounds as the floor does. *)
Lemma inPhase_index_pos (longt : array) (ΩD : R) (n : nat) :
  (2 ≤ length longt)%nat → 0 < at_ longt 1 * ΩD →
  inPhase_index longt ΩD n = Ok (phase_index (at_ longt 1) ΩD n).
Proof.
  intros Hlen Hpos. rewrite inPhase_index_fin by (assumption || lra).
  pose proof (phase_arg_nonneg (at_ longt 1) ΩD n Hpos) as Hnn.
  rewrite trunc_nonneg by lra. reflexivity.
Qed.

(** For a negative denominator every index is at most zero. *)
Lemma inPhase_index_neg (longt : array) (ΩD : R) (n : nat) :
  (2 ≤ length longt)%nat → at_ longt 1 * ΩD < 0 →
  ∃ m, inPhase_index longt ΩD n = Ok m ∧ (m ≤ 0)%Z.
Proof.
  intros Hlen Hneg. rewrite inPhase_index_fin by (assumption || lra).
  eexists. split; [reflexivity|]. apply trunc_half_nonpos.
  pose proof PI_RGT_0 as Hπ. pose proof (pos_INR n) as Hn.
  revert Hneg. generalize (at_ longt 1 * ΩD). intros q Hq.
  assert (Hinv : / q < 0) by now apply Rinv_lt_0_compat.
  unfold Rdiv. assert (0 <= 2 * PI * INR n) by (apply Rmult_le_pos; lra).
  nra.
Qed.

(** ** The loop *)

(** The list built when the counter runs from [a] through [k] indices
    given by [f]. *)
Lemma inPhase_loop_run (longt : array) (ΩD : R) (f : nat → Z) (k : nat) :
  ∀ (a : nat) (acc : list Z) (fuel : nat),
    (∀ n, (a ≤ n ≤ a + k)%nat → inPhase_index longt ΩD n = Ok (f n)) →
    (∀ n, (a ≤ n < a + k)%nat → (f n < Z.of_nat (length longt))%Z) →
    (Z.of_nat (length longt) ≤ f (a + k)%nat)%Z →
    (k < fuel)%nat →
    inPhase_loop fuel longt ΩD a acc =
    Done (acc ++ List.filter
                   (λ m, (1 <? m) && (m <? Z.of_nat (length longt)))%Z
                   (map f (seq a k))).
Proof.
  induction k as [| k IH]; intros a acc fuel Hidx Hlt Hov Hfuel.
  - destruct fuel as [| fuel]; [lia|]. cbn [inPhase_loop seq map List.filter].
    rewrite Hidx by lia. rewrite Nat.add_0_r in Hov.
    destruct (Z.ltb_spec (f a) (Z.of_nat (length longt))) as [H | _]; [lia|].
    rewrite andb_false_r.
    destruct (Z.geb_spec (f a) (Z.of_nat (length longt))) as [_ | H]; [|lia].
    now rewrite app_nil_r.
  - destruct fuel as [| fuel]; [lia|]. cbn [inPhase_loop seq map List.filter].
    rewrite Hidx by lia.
    specialize (Hlt a ltac:(lia)) as Ha.
    assert (Hrest : ∀ acc',
              inPhase_loop fuel longt ΩD (a + 1) acc' =
              Done (acc' ++ List.filter
                      (λ m, (1 <? m) && (m <? Z.of_nat (length longt)))%Z
                      (map f (seq (S a) k)))).
    { intros acc'. replace (S a) with (a + 1)%nat by lia.
      apply IH; [| | | lia].
      - intros n Hn. apply Hidx. lia.
      - intros n Hn. apply Hlt. lia.
      - now replace (a + 1 + k)%nat with (a + S k)%nat by lia. }
    destruct ((1 <? f a) && (f a <? Z.of_nat (length longt)))%Z eqn:Esel.
    + rewrite Hrest. now rewrite <- app_assoc.
    + destruct (Z.geb_spec (f a) (Z.of_nat (length longt))) as [H | _]; [lia|].
      apply Hrest.
Qed.

(** Indices that never exceed zero keep the loop running on a grid of at
    least two points. *)
Lemma inPhase_loop_stuck (longt : array) (ΩD : R) (fuel : nat) :
  (2 ≤ length longt)%nat →
  (∀ n, ∃ m, inPhase_index longt ΩD n = Ok m ∧ (m ≤ 0)%Z) →
  ∀ (a : nat) (acc : list Z), inPhase_loop fuel longt ΩD a acc = OutOfFuel.
Proof.
  intros Hlen Hidx. induction fuel as [| fuel IH]; intros a acc.
  - reflexivity.
  - cbn [inPhase_loop]. destruct (Hidx a) as (m & -> & Hm).
    destruct (Z.ltb_spec 1 m) as [H | _]; [lia|]. cbn [andb].
    destruct (Z.geb_spec m (Z.of_nat (length longt))) as [H | _]; [lia|].
    apply IH.
Qed.

(** On a grid with [t[1]·Ω_D > 0] the loop ends, and returns the selected
    indices up to the first overflow. *)
Lemma inPhase_returns (longt : array) (ΩD : R) (K : nat) :
  (2 ≤ length longt)%nat → 0 < at_ longt 1 * ΩD →
  first_overflow (at_ longt 1) ΩD (length longt) K →
  ∀ fuel, (K < fuel)%nat →
    inPhase fuel longt ΩD = Done (strobe (at_ longt 1) ΩD (length longt) K).
Proof.
  intros Hlen Hpos [Hov Hlt] fuel Hfuel. unfold inPhase, strobe.
  rewrite (inPhase_loop_run longt ΩD (phase_index (at_ longt 1) ΩD) K)
    by first [ intros n _; now apply inPhase_index_pos
             | intros n Hn; apply Hlt; lia
             | assumption ].
  reflexivity.
Qed.

(** ** The list of selected indices *)

Lemma strobe_In (d ΩD : R) (len K : nat) (m : Z) :
  In m (strobe d ΩD len K) ↔
  ∃ n, (n < K)%nat ∧ m = phase_index d ΩD n ∧ (1 < m < Z.of_nat len)%Z.
Proof.
  unfold strobe. rewrite filter_In, in_map_iff. split.
  - intros [(n & <- & Hn) Hsel]. apply in_seq in Hn.
    apply andb_true_iff in Hsel as [H1 H2].
    apply Z.ltb_lt in H1, H2. exists n. repeat split; lia.
  - intros (n & Hn & -> & H1 & H2). split.
    + exists n. split; [reflexivity|]. apply in_seq. lia.
    + apply andb_true_iff. split; now apply Z.ltb_lt.
Qed.

(** Selecting from the images of consecutive counters keeps their order. *)
Lemma filter_map_seq_sorted (rel : Z → Z → Prop) (f : nat → Z)
    (p : Z → bool) (k : nat) :
  (∀ n n', (n < n')%nat → rel (f n) (f n')) →
  ∀ a, StronglySorted rel (List.filter p (map f (seq a k))).
Proof.
  intros Hmono. induction k as [| k IH]; intros a.
  - constructor.
  - cbn [seq map List.filter]. destruct (p (f a)); [|apply IH].
    constructor; [apply IH|].
    apply List.Forall_forall. intros m Hm.
    apply filter_In in Hm as [Hm _]. apply in_map_iff in Hm as (n & <- & Hn).
    apply in_seq in Hn. apply Hmono. lia.
Qed.

Lemma strobe_sorted (d ΩD : R) (len K : nat) :
  0 < d * ΩD → StronglySorted Z.le (strobe d ΩD len K).
Proof.
  intros Hpos. unfold strobe. apply filter_map_seq_sorted.
  intros n n' Hlt. apply phase_index_mono; [assumption | lia].
Qed.

Lemma strobe_strictly_sorted (d ΩD : R) (len K : nat) :
  0 < d * ΩD → 1 <= 2 * PI / (d * ΩD) →
  StronglySorted Z.lt (strobe d ΩD len K).
Proof.
  intros Hpos Hc. unfold strobe. apply filter_map_seq_sorted.
  intros n n' Hlt. now apply phase_index_strict_mono.
Qed.

(** On a uniform grid that starts at zero, the time at the rounded index is
    within half a step of the exact in-phase time. *)
Lemma phase_time_near (t : array) (Δt ΩD : R) (n : nat) :
  0 < Δt → 0 < ΩD → uniform_from_zero t Δt →
  (0 ≤ phase_index Δt ΩD n < Z.of_nat (length t))%Z →
  Rabs (at_ t (Z.to_nat (phase_index Δt ΩD n)) - 2 * PI * INR n / ΩD)
    <= Δt / 2.
Proof.
  intros HΔ HΩ Hgrid [Hlo Hhi].
  rewrite Hgrid by lia. rewrite INR_IZR_INZ, Z2Nat.id by assumption.
  pose proof (phase_index_near Δt ΩD n) as Hnear.
  replace (IZR (phase_index Δt ΩD n) * Δt - 2 * PI * INR n / ΩD)
    with ((IZR (phase_index Δt ΩD n) - 2 * PI * INR n / (Δt * ΩD)) * Δt)
    by (field; lra).
  rewrite Rabs_mult, (Rabs_pos_eq Δt) by lra.
  apply Rmult_le_compat_r with (r := Δt) in Hnear; lra.
Qed.

(** ** Trajectories are determined by the recurrence *)

Lemma euler_inv_unique (g : R) (t t' : array) (FD ℓ θ0 ω0 γ ΩD Δt : R)
    (θ ω θ' ω' : array) :
  length t' = length t →
  (∀ n, (n + 1 < length t)%nat →
        FD * sin (ΩD * at_ t' n) = FD * sin (ΩD * at_ t n)) →
  euler_inv g t FD ℓ θ0 ω0 γ ΩD Δt (length t - 1) (θ, ω) →
  euler_inv g t' FD ℓ θ0 ω0 γ ΩD Δt (length t' - 1) (θ', ω') →
  θ' = θ ∧ ω' = ω.
Proof.
  intros Hlen Hdrive (Lθ & Lω & Hθ0 & Hω0 & Hrec) (Lθ' & Lω' & Hθ0' & Hω0' & Hrec').
  cbn [fst snd] in *.
  assert (Hpt : ∀ i, (i < length t)%nat →
                     at_ θ' i = at_ θ i ∧ at_ ω' i = at_ ω i).
  { induction i as [| i IH]; intros Hi.
    - split; congruence.
    - destruct (IH ltac:(lia)) as [Eθ Eω].
      destruct (Hrec i ltac:(lia)) as [Hω Hθ].
      destruct (Hrec' i ltac:(lia)) as [Hω' Hθ'].
      replace (S i) with (i + 1)%nat by lia.
      assert (E : at_ ω' (i + 1) = at_ ω (i + 1)).
      { rewrite Hω, Hω', Eθ, Eω, (Hdrive i) by lia. reflexivity. }
      split; [|exact E]. now rewrite Hθ, Hθ', Eθ, E. }
  split.
  - apply nth_ext with (d := 0) (d' := 0); [congruence|].
    intros i Hi. apply (Hpt i). lia.
  - apply nth_ext with (d := 0) (d' := 0); [congruence|].
    intros i Hi. apply (Hpt i). lia.
Qed.

(** * The integrator: claims *)

(** Concrete grids used below. *)
Lemma uniform_0_1_2 : uniform [0; 1; 2] 1.
Proof.
  intros n Hn. cbn [length] in Hn.
  destruct n as [| [| n]]; [| | lia]; unfold at_; cbn [Nat.add nth]; lra.
Qed.

Lemma uniform_0_1 : uniform [0; 1] 1.
Proof.
  intros n Hn. cbn [length] in Hn.
  destruct n as [| n]; [| lia]. unfold at_; cbn [Nat.add nth]; lra.
Qed.

Lemma not_in_range_4 : ¬ in_range 4.
Proof. unfold in_range. pose proof PI_4. lra. Qed.

(** C1 (as amended): for every grid of length N ≥ 2 with uniform spacing Δt
    and all scalar parameters with ℓ ≠ 0, [euler] returns two arrays of
    length N with θ[0] = θ0 and ω[0] = ω0, and for every n in 0..N−2 the
    new velocity ω[n+1] is computed from the old angle θ[n], and the new
    angle θ[n+1] is the wrapped value of θ[n] + Δt·ω[n+1], computed from
    the new velocity. *)
Theorem euler_semi_implicit (g : R) (t : array) (FD ℓ θ0 ω0 γ ΩD Δt : R) :
  (2 ≤ length t)%nat → uniform t Δt → ℓ ≠ 0 →
  ∃ θ ω, euler g t FD ℓ θ0 ω0 γ ΩD = Ok (θ, ω) ∧
         length θ = length t ∧ length ω = length t ∧
         at_ θ 0 = θ0 ∧ at_ ω 0 = ω0 ∧
         ∀ n, (n + 1 < length t)%nat →
           at_ ω (n + 1) =
             at_ ω n + Δt * (- (g / ℓ) * sin (at_ θ n) - γ * at_ ω n
                             + FD * sin (ΩD * at_ t n)) ∧
           at_ θ (n + 1) = wrap (at_ θ n + Δt * at_ ω (n + 1)).
Proof.
  intros HN Hunif Hℓ.
  destruct (euler_returns g t FD ℓ θ0 ω0 γ ΩD Hℓ HN)
    as (θ & ω & Heq & Lθ & Lω & Hθ0 & Hω0 & Hrec).
  cbn [fst snd] in *.
  assert (HΔ : at_ t 1 - at_ t 0 = Δt) by (apply (Hunif 0%nat); lia).
  rewrite HΔ in Hrec.
  exists θ, ω. repeat split; try assumption.
  - apply (Hrec n). lia.
  - apply (Hrec n). lia.
Qed.

Lemma euler_semi_implicit_witness :
  (2 ≤ length [0; 1; 2])%nat ∧ uniform [0; 1; 2] 1 ∧ 1 ≠ 0 ∧
  ∃ θ ω, euler g_std [0; 1; 2] 0.5 1 0.2 0 0.5 1 = Ok (θ, ω) ∧
         length θ = 3%nat ∧ length ω = 3%nat ∧
         at_ θ 0 = 0.2 ∧ at_ ω 0 = 0 ∧
         ∀ n, (n + 1 < 3)%nat →
           at_ ω (n + 1) =
             at_ ω n + 1 * (- (g_std / 1) * sin (at_ θ n) - 0.5 * at_ ω n
                            + 0.5 * sin (1 * at_ [0; 1; 2] n)) ∧
           at_ θ (n + 1) = wrap (at_ θ n + 1 * at_ ω (n + 1)).
Proof.
  assert (HN : (2 ≤ length [0; 1; 2])%nat) by (cbn [length]; lia).
  assert (Hℓ : 1 ≠ 0) by lra.
  split; [exact HN|]. split; [exact uniform_0_1_2|]. split; [exact Hℓ|].
  exact (euler_semi_implicit g_std [0; 1; 2] 0.5 1 0.2 0 0.5 1 1
           HN uniform_0_1_2 Hℓ).
Defined.

(** C1, the claim as stated fails at ℓ = 0: on a uniform grid of two
    points the first iteration raises at [g/ℓ] and no arrays are
    returned. *)
Lemma euler_semi_implicit_counterexample :
  (2 ≤ length [0; 1])%nat ∧ uniform [0; 1] 1 ∧
  euler g_std [0; 1] 0 0 0 0 0 1 = Raise ZeroDivisionError.
Proof.
  split; [cbn [length]; lia|]. split; [exact uniform_0_1|].
  apply euler_zero_length. cbn [length]. lia.
Qed.

(** A run that is kicked hard enough to go over the top.  With the
    notebook's ℓ = g, γ = 0.5, Ω_D = 2/3 and F_D = 1.2, from θ0 = 0 with
    ω0 = 8 on the grid [0, 1, 2]: the damping halves the velocity to
    ω[1] = 4, the candidate angle 0 + 1·4 ≥ π takes the second conditional,
    θ[1] = 4 − 2π, and the next velocity stays within [−0.2, 4.2]. *)
Lemma euler_kick (θ ω : array) :
  euler g_std [0; 1; 2] 1.2 g_std 0 8 0.5 (2 / 3) = Ok (θ, ω) →
  at_ θ 0 = 0 ∧ at_ ω 0 = 8 ∧ at_ ω 1 = 4 ∧ at_ θ 1 = 4 - 2 * PI ∧
  -0.2 <= at_ ω 2 <= 4.2.
Proof.
  intros Heq. pose proof PI_4 as Hπ4. pose proof PI_RGT_0 as Hπ0.
  apply euler_Ok_inv in Heq as (_ & _ & _ & _ & Eθ0 & Eω0 & Hrec).
  cbn [fst snd length] in *.
  assert (Hg : g_std / g_std = 1) by (unfold g_std; lra).
  assert (HΔ : at_ [0; 1; 2] 1 - at_ [0; 1; 2] 0 = 1)
    by (unfold at_; cbn [nth]; lra).
  rewrite HΔ in Hrec.
  destruct (Hrec 0%nat ltac:(lia)) as [Hω1 Hθ1].
  destruct (Hrec 1%nat ltac:(lia)) as [Hω2 _].
  cbn [Nat.add] in *. rewrite Hg in Hω1, Hω2.
  assert (Ht0 : at_ [0; 1; 2] 0 = 0) by reflexivity.
  assert (Eω1 : at_ ω 1 = 4).
  { rewrite Hω1, Eθ0, Eω0, Ht0, Rmult_0_r, sin_0. lra. }
  assert (Eθ1 : at_ θ 1 = 4 - 2 * PI).
  { rewrite Hθ1, Eθ0, Eω1. rewrite wrap_high by lra. lra. }
  split; [exact Eθ0|]. split; [exact Eω0|]. split; [exact Eω1|].
  split; [exact Eθ1|].
  rewrite Hω2, Eω1.
  pose proof (SIN_bound (at_ θ 1)) as Hs1.
  pose proof (SIN_bound (2 / 3 * at_ [0; 1; 2] 1)) as Hs2.
  lra.
Qed.

(** C2 (as amended): when the initial angle lies in [−π, π) and every
    single-step advance satisfies |Δt·ω[n+1]| < 2π, every entry of the
    returned angle array lies in [−π, π), the first one included. *)
Theorem euler_angle_range (g : R) (t : array) (FD ℓ θ0 ω0 γ ΩD : R)
    (θ ω : array) :
  euler g t FD ℓ θ0 ω0 γ ΩD = Ok (θ, ω) →
  in_range θ0 →
  (∀ n, (n + 1 < length t)%nat →
        Rabs ((at_ t 1 - at_ t 0) * at_ ω (n + 1)) < 2 * PI) →
  ∀ n, (n < length t)%nat → in_range (at_ θ n).
Proof.
  intros Heq Hθ0 Hstep.
  apply euler_Ok_inv in Heq as (_ & _ & _ & _ & Eθ0 & _ & Hrec).
  cbn [fst snd] in *.
  induction n as [| n IH]; intros Hn.
  - now rewrite Eθ0.
  - replace (S n) with (n + 1)%nat by lia.
    destruct (Hrec n ltac:(lia)) as [_ ->].
    specialize (IH ltac:(lia)). specialize (Hstep n ltac:(lia)).
    apply Rabs_def2 in Hstep. unfold in_range in IH.
    apply wrap_in_range. lra.
Qed.

Lemma euler_angle_range_witness :
  ∃ θ ω, euler g_std [0; 1; 2] 1.2 g_std 0 8 0.5 (2 / 3) = Ok (θ, ω) ∧
         in_range 0 ∧
         (∀ n, (n + 1 < length [0; 1; 2])%nat →
               Rabs ((at_ [0; 1; 2] 1 - at_ [0; 1; 2] 0) * at_ ω (n + 1))
                 < 2 * PI) ∧
         at_ ω 1 = 4 ∧ at_ θ 1 = 4 - 2 * PI ∧
         ∀ n, (n < length [0; 1; 2])%nat → in_range (at_ θ n).
Proof.
  assert (HN : (2 ≤ length [0; 1; 2])%nat) by (cbn [length]; lia).
  assert (Hℓ : g_std ≠ 0) by (unfold g_std; lra).
  pose proof PI_RGT_0 as Hπ. pose proof PI2_3_2 as Hπ3.
  destruct (euler_returns g_std [0; 1; 2] 1.2 g_std 0 8 0.5 (2 / 3) Hℓ HN)
    as (θ & ω & Heq & _).
  destruct (euler_kick θ ω Heq) as (_ & _ & Eω1 & Eθ1 & Hω2).
  assert (Hθ0 : in_range 0) by (unfold in_range; lra).
  assert (HΔ : at_ [0; 1; 2] 1 - at_ [0; 1; 2] 0 = 1)
    by (unfold at_; cbn [nth]; lra).
  assert (Hstep : ∀ n, (n + 1 < length [0; 1; 2])%nat →
            Rabs ((at_ [0; 1; 2] 1 - at_ [0; 1; 2] 0) * at_ ω (n + 1))
              < 2 * PI).
  { intros n Hn. cbn [length] in Hn. rewrite HΔ.
    destruct n as [| [| n]]; [| | lia]; cbn [Nat.add].
    - rewrite Eω1. apply Rabs_def1; lra.
    - apply Rabs_def1; lra. }
  exists θ, ω. split; [exact Heq|]. split; [exact Hθ0|].
  split; [exact Hstep|]. split; [exact Eω1|]. split; [exact Eθ1|].
  exact (euler_angle_range g_std [0; 1; 2] 1.2 g_std 0 8 0.5 (2 / 3) θ ω
           Heq Hθ0 Hstep).
Defined.

(** C2, the claim as stated fails.  The initial angle is stored as given:
    with θ0 = 4 the entry θ[0] = 4 is outside [−π, π).  And one pass of the
    conditional pair does not bring back a large step: from θ0 = 0 with
    ω0 = 100 and Δt = 1 the entry θ[1] = 100 − 2π is outside too. *)
Lemma euler_angle_range_counterexample :
  (∃ θ ω, euler g_std [0; 1] 0 1 4 0 0 1 = Ok (θ, ω) ∧
          at_ θ 0 = 4 ∧ ¬ in_range (at_ θ 0)) ∧
  (∃ θ ω, euler g_std [0; 1] 0 1 0 100 0 1 = Ok (θ, ω) ∧
          at_ θ 1 = 100 - 2 * PI ∧ ¬ in_range (at_ θ 1)).
Proof.
  assert (HN : (2 ≤ length [0; 1])%nat) by (cbn [length]; lia).
  assert (Hℓ : 1 ≠ 0) by lra.
  pose proof PI_4 as Hπ4. pose proof PI_RGT_0 as Hπ0.
  split.
  - destruct (euler_returns g_std [0; 1] 0 1 4 0 0 1 Hℓ HN)
      as (θ & ω & Heq & _ & _ & Eθ0 & _ & _).
    cbn [fst snd] in *. exists θ, ω.
    split; [exact Heq|]. split; [exact Eθ0|].
    rewrite Eθ0. exact not_in_range_4.
  - destruct (euler_returns g_std [0; 1] 0 1 0 100 0 1 Hℓ HN)
      as (θ & ω & Heq & _ & _ & Eθ0 & Eω0 & Hrec).
    cbn [fst snd length] in *. exists θ, ω. split; [exact Heq|].
    destruct (Hrec 0%nat ltac:(lia)) as [Hω Hθ].
    cbn [Nat.add] in Hω, Hθ. rewrite Eθ0, Eω0, sin_0 in Hω.
    unfold at_ at 2 3 in Hω. cbn [nth] in Hω.
    assert (Eω1 : at_ ω 1 = 100) by (rewrite Hω; lra).
    rewrite Eθ0, Eω1 in Hθ. unfold at_ at 2 3 in Hθ. cbn [nth] in Hθ.
    rewrite wrap_high in Hθ by lra.
    assert (Eθ1 : at_ θ 1 = 100 - 2 * PI) by (rewrite Hθ; lra).
    split; [exact Eθ1|]. rewrite Eθ1. unfold in_range. lra.
Qed.

(** C7 (as amended): a grid of fewer than two points makes [euler] fail,
    with the [IndexError] of the read [t[1]]; a grid of at least two points
    whose spacing t[1] − t[0] is zero or negative is not rejected: no check
    is made, and (for ℓ ≠ 0) two arrays of the length of the grid are
    returned. *)
Theorem euler_degenerate_grid (g : R) (t : array) (FD ℓ θ0 ω0 γ ΩD : R) :
  ((length t < 2)%nat → euler g t FD ℓ θ0 ω0 γ ΩD = Raise IndexError) ∧
  ((2 ≤ length t)%nat → at_ t 1 - at_ t 0 <= 0 → ℓ ≠ 0 →
   ∃ θ ω, euler g t FD ℓ θ0 ω0 γ ΩD = Ok (θ, ω) ∧
          length θ = length t ∧ length ω = length t).
Proof.
  split.
  - apply euler_short_grid.
  - intros HN _ Hℓ.
    destruct (euler_returns g t FD ℓ θ0 ω0 γ ΩD Hℓ HN)
      as (θ & ω & Heq & Lθ & Lω & _).
    cbn [fst snd] in *. now exists θ, ω.
Qed.

Lemma euler_degenerate_grid_witness :
  euler g_std [5] 0 1 0.2 0 0.5 1 = Raise IndexError ∧
  ∃ θ ω, euler g_std [3; 2; 1] 0 1 0.2 0 0.5 1 = Ok (θ, ω) ∧
         length θ = 3%nat ∧ length ω = 3%nat.
Proof.
  split.
  - apply (proj1 (euler_degenerate_grid g_std [5] 0 1 0.2 0 0.5 1)).
    cbn [length]. lia.
  - apply (proj2 (euler_degenerate_grid g_std [3; 2; 1] 0 1 0.2 0 0.5 1)).
    + cbn [length]. lia.
    + unfold at_. cbn [nth]. lra.
    + lra.
Defined.

(** C7, the claim as stated fails: on the grid [0, 0], whose spacing is
    zero, [euler] raises nothing and returns a trajectory. *)
Lemma euler_degenerate_grid_counterexample :
  at_ [0; 0] 1 - at_ [0; 0] 0 = 0 ∧
  ∃ θ ω, euler g_std [0; 0] 0 1 0.2 0 0.5 1 = Ok (θ, ω) ∧
         length θ = 2%nat ∧ length ω = 2%nat.
Proof.
  split.
  - unfold at_. cbn [nth]. lra.
  - assert (HN : (2 ≤ length [0; 0])%nat) by (cbn [length]; lia).
    assert (Hℓ : 1 ≠ 0) by lra.
    destruct (euler_returns g_std [0; 0] 0 1 0.2 0 0.5 1 Hℓ HN)
      as (θ & ω & Heq & Lθ & Lω & _).
    cbn [fst snd length] in *. now exists θ, ω.
Qed.

(** C8: at every step n of a run of [euler], the angle θ[n+1] is obtained
    from the candidate c = θ[n] + Δt·ω[n+1], where ω[n+1] is the velocity
    just computed, by the single conditional pair: c + 2π if c < −π,
    c − 2π if c ≥ π, and c itself otherwise, applied once (no modulo
    loop); and if θ[n] lies in [−π, π) and the advance satisfies
    |Δt·ω[n+1]| < 2π, this leaves θ[n+1] in [−π, π). *)
Theorem euler_wrap_one_shot (g : R) (t : array) (FD ℓ θ0 ω0 γ ΩD : R)
    (θ ω : array) (n : nat) :
  euler g t FD ℓ θ0 ω0 γ ΩD = Ok (θ, ω) →
  (n + 1 < length t)%nat →
  in_range (at_ θ n) →
  Rabs ((at_ t 1 - at_ t 0) * at_ ω (n + 1)) < 2 * PI →
  at_ θ 0 = θ0 ∧ at_ ω 0 = ω0 ∧
  at_ ω (n + 1) =
    at_ ω n + (at_ t 1 - at_ t 0)
              * (- (g / ℓ) * sin (at_ θ n) - γ * at_ ω n
                 + FD * sin (ΩD * at_ t n)) ∧
  at_ θ (n + 1) =
    (if Rlt_dec (at_ θ n + (at_ t 1 - at_ t 0) * at_ ω (n + 1)) (- PI)
     then at_ θ n + (at_ t 1 - at_ t 0) * at_ ω (n + 1) + 2 * PI
     else if Rge_dec (at_ θ n + (at_ t 1 - at_ t 0) * at_ ω (n + 1)) PI
     then at_ θ n + (at_ t 1 - at_ t 0) * at_ ω (n + 1) - 2 * PI
     else at_ θ n + (at_ t 1 - at_ t 0) * at_ ω (n + 1)) ∧
  in_range (at_ θ (n + 1)).
Proof.
  intros Heq Hn Hin Hstep.
  apply euler_Ok_inv in Heq as (_ & _ & _ & _ & Eθ0 & Eω0 & Hrec).
  cbn [fst snd] in *.
  destruct (Hrec n ltac:(lia)) as [Hω Hθ].
  split; [exact Eθ0|]. split; [exact Eω0|]. split; [exact Hω|].
  set (c := at_ θ n + (at_ t 1 - at_ t 0) * at_ ω (n + 1)) in *.
  split.
  - rewrite Hθ. destruct (Rlt_dec c (- PI)) as [Hlo | Hnlo].
    + now apply wrap_low.
    + destruct (Rge_dec c PI) as [Hhi | Hnhi].
      * apply wrap_high. lra.
      * apply wrap_mid. lra.
  - rewrite Hθ. apply Rabs_def2 in Hstep. unfold in_range in Hin.
    apply wrap_in_range. unfold c. lra.
Qed.

(** The step that goes over the top: from θ[0] = 0 with ω[1] = 4 the
    candidate is 4 ≥ π, the second conditional is taken, and
    θ[1] = 4 − 2π. *)
Lemma euler_wrap_one_shot_witness :
  ∃ θ ω, euler g_std [0; 1; 2] 1.2 g_std 0 8 0.5 (2 / 3) = Ok (θ, ω) ∧
         (0 + 1 < length [0; 1; 2])%nat ∧
         in_range (at_ θ 0) ∧
         Rabs ((at_ [0; 1; 2] 1 - at_ [0; 1; 2] 0) * at_ ω (0 + 1)) < 2 * PI ∧
         PI <= at_ θ 0 + (at_ [0; 1; 2] 1 - at_ [0; 1; 2] 0) * at_ ω (0 + 1) ∧
         at_ θ (0 + 1) = 4 - 2 * PI ∧
         (at_ θ 0 = 0 ∧ at_ ω 0 = 8 ∧
          at_ ω (0 + 1) =
            at_ ω 0 + (at_ [0; 1; 2] 1 - at_ [0; 1; 2] 0)
                      * (- (g_std / g_std) * sin (at_ θ 0) - 0.5 * at_ ω 0
                         + 1.2 * sin (2 / 3 * at_ [0; 1; 2] 0)) ∧
          at_ θ (0 + 1) =
            (if Rlt_dec (at_ θ 0 + (at_ [0; 1; 2] 1 - at_ [0; 1; 2] 0)
                                   * at_ ω (0 + 1)) (- PI)
             then at_ θ 0 + (at_ [0; 1; 2] 1 - at_ [0; 1; 2] 0)
                            * at_ ω (0 + 1) + 2 * PI
             else if Rge_dec (at_ θ 0 + (at_ [0; 1; 2] 1 - at_ [0; 1; 2] 0)
                                        * at_ ω (0 + 1)) PI
             then at_ θ 0 + (at_ [0; 1; 2] 1 - at_ [0; 1; 2] 0)
                            * at_ ω (0 + 1) - 2 * PI
             else at_ θ 0 + (at_ [0; 1; 2] 1 - at_ [0; 1; 2] 0)
                            * at_ ω (0 + 1)) ∧
          in_range (at_ θ (0 + 1))).
Proof.
  assert (HN : (2 ≤ length [0; 1; 2])%nat) by (cbn [length]; lia).
  assert (Hℓ : g_std ≠ 0) by (unfold g_std; lra).
  pose proof PI_RGT_0 as Hπ. pose proof PI2_3_2 as Hπ3. pose proof PI_4 as Hπ4.
  destruct (euler_returns g_std [0; 1; 2] 1.2 g_std 0 8 0.5 (2 / 3) Hℓ HN)
    as (θ & ω & Heq & _).
  destruct (euler_kick θ ω Heq) as (Eθ0 & _ & Eω1 & Eθ1 & _).
  assert (HΔ : at_ [0; 1; 2] 1 - at_ [0; 1; 2] 0 = 1)
    by (unfold at_; cbn [nth]; lra).
  assert (Hn : (0 + 1 < length [0; 1; 2])%nat) by (cbn [length]; lia).
  assert (Hin : in_range (at_ θ 0)) by (rewrite Eθ0; unfold in_range; lra).
  assert (Hstep : Rabs ((at_ [0; 1; 2] 1 - at_ [0; 1; 2] 0) * at_ ω (0 + 1))
                  < 2 * PI).
  { rewrite HΔ. cbn [Nat.add]. rewrite Eω1. apply Rabs_def1; lra. }
  exists θ, ω. split; [exact Heq|]. split; [exact Hn|].
  split; [exact Hin|]. split; [exact Hstep|]. split.
  { rewrite HΔ, Eθ0. cbn [Nat.add]. rewrite Eω1. lra. }
  split; [exact Eθ1|].
  exact (euler_wrap_one_shot g_std [0; 1; 2] 1.2 g_std 0 8 0.5 (2 / 3)
           θ ω 0 Heq Hn Hin Hstep).
Defined.

(** C10: for every grid of length ≥ 2, uniform or not, [euler] takes every
    step with Δt = t[1] − t[0] and raises nothing on account of the grid
    (for ℓ ≠ 0 it returns); the grid enters the result only through that
    first gap and through the driving terms F_D·sin(Ω_D·t[n]), so two grids
    of one length that agree on these are integrated alike, whatever their
    later spacings. *)
Theorem euler_first_gap_only (g : R) (t : array) (FD ℓ θ0 ω0 γ ΩD : R) :
  (2 ≤ length t)%nat →
  (ℓ ≠ 0 →
   ∃ θ ω, euler g t FD ℓ θ0 ω0 γ ΩD = Ok (θ, ω) ∧
          ∀ n, (n + 1 < length t)%nat →
            at_ ω (n + 1) =
              at_ ω n + (at_ t 1 - at_ t 0)
                        * (- (g / ℓ) * sin (at_ θ n) - γ * at_ ω n
                           + FD * sin (ΩD * at_ t n)) ∧
            at_ θ (n + 1) =
              wrap (at_ θ n + (at_ t 1 - at_ t 0) * at_ ω (n + 1))) ∧
  (∀ t' : array,
     length t' = length t →
     at_ t' 1 - at_ t' 0 = at_ t 1 - at_ t 0 →
     (∀ n, (n + 1 < length t)%nat →
           FD * sin (ΩD * at_ t' n) = FD * sin (ΩD * at_ t n)) →
     euler g t' FD ℓ θ0 ω0 γ ΩD = euler g t FD ℓ θ0 ω0 γ ΩD).
Proof.
  intros HN. split.
  - intros Hℓ.
    destruct (euler_returns g t FD ℓ θ0 ω0 γ ΩD Hℓ HN)
      as (θ & ω & Heq & _ & _ & _ & _ & Hrec).
    cbn [fst snd] in Hrec. exists θ, ω. split; [exact Heq|].
    intros n Hn. apply (Hrec n). lia.
  - intros t' Hlen Hgap Hdrive.
    destruct (Req_dec_T ℓ 0) as [-> | Hℓ].
    + now rewrite !euler_zero_length by lia.
    + destruct (euler_returns g t FD ℓ θ0 ω0 γ ΩD Hℓ HN)
        as (θ & ω & Heq & Hinv).
      destruct (euler_returns g t' FD ℓ θ0 ω0 γ ΩD Hℓ ltac:(lia))
        as (θ' & ω' & Heq' & Hinv').
      rewrite Hgap in Hinv'.
      destruct (euler_inv_unique g t t' FD ℓ θ0 ω0 γ ΩD _ θ ω θ' ω'
                  Hlen Hdrive Hinv Hinv') as [-> ->].
      now rewrite Heq, Heq'.
Qed.

(** On the non-uniform grid [0, 1, 5] with no driving force, the trajectory
    is that of the uniform grid [0, 1, 2]. *)
Lemma euler_first_gap_only_witness :
  (2 ≤ length [0; 1; 5])%nat ∧
  euler g_std [0; 1; 2] 0 1 0.2 0 0.5 1 = euler g_std [0; 1; 5] 0 1 0.2 0 0.5 1.
Proof.
  assert (HN : (2 ≤ length [0; 1; 5])%nat) by (cbn [length]; lia).
  split; [exact HN|].
  apply (proj2 (euler_first_gap_only g_std [0; 1; 5] 0 1 0.2 0 0.5 1 HN)).
  - reflexivity.
  - unfold at_. cbn [nth]. lra.
  - intros n _. lra.
Defined.

(** * The in-phase indices: claims *)

(** ** Evaluating the index formula on concrete inputs *)

Lemma phase_index_ratio (d ΩD c : R) (n : nat) :
  d * ΩD ≠ 0 → 2 * PI = c * (d * ΩD) →
  phase_index d ΩD n = Zfloor (c * INR n + 0.5).
Proof.
  intros Hnz Hc. unfold phase_index. f_equal. f_equal.
  rewrite Hc. revert Hnz. generalize (d * ΩD). intros q Hq. now field.
Qed.

Lemma first_overflow_succ (d ΩD : R) (len K : nat) :
  0 < d * ΩD →
  (phase_index d ΩD K < Z.of_nat len)%Z →
  (Z.of_nat len ≤ phase_index d ΩD (S K))%Z →
  first_overflow d ΩD len (S K).
Proof.
  intros Hpos Hlast Hov. split; [exact Hov|]. intros n Hn.
  pose proof (phase_index_mono d ΩD n K Hpos ltac:(lia)). lia.
Qed.

(** Close a goal [Zfloor x = z] for a numeral [z] and an [x] linear in
    numerals. *)
Ltac floor_eval := apply Zfloor_eq; cbn [INR]; split; lra.

Lemma uniform_from_zero_0_1_2_3 : uniform_from_zero [0; 1; 2; 3] 1.
Proof.
  intros k Hk. cbn [length] in Hk. unfold at_.
  destruct k as [| [| [| [| k]]]]; [| | | | lia]; cbn [nth INR]; lra.
Qed.

(** Phases one grid step apart: the index is the counter. *)
Lemma phase_index_unit (d ΩD : R) (n : nat) :
  d * ΩD ≠ 0 → 2 * PI = 1 * (d * ΩD) → phase_index d ΩD n = Z.of_nat n.
Proof.
  intros Hnz Hc. rewrite (phase_index_ratio d ΩD 1) by assumption.
  apply Zfloor_eq. rewrite <- INR_IZR_INZ. lra.
Qed.

(** Phases two grid steps apart: the index is twice the counter. *)
Lemma phase_index_double (d ΩD : R) (n : nat) :
  d * ΩD ≠ 0 → 2 * PI = 2 * (d * ΩD) →
  phase_index d ΩD n = Z.of_nat (2 * n).
Proof.
  intros Hnz Hc. rewrite (phase_index_ratio d ΩD 2) by assumption.
  apply Zfloor_eq. rewrite <- INR_IZR_INZ, mult_INR. cbn [INR]. lra.
Qed.

(** ** The grid [1, 2, …, 6] sampled at Ω_D = π *)

Lemma uniform_1_to_6 : uniform [1; 2; 3; 4; 5; 6] 1.
Proof.
  intros n Hn. cbn [length] in Hn. unfold at_.
  destruct n as [| [| [| [| [| n]]]]]; [| | | | | lia];
    cbn [Nat.add nth]; lra.
Qed.

Lemma inPhase_1_to_6 (fuel : nat) :
  (6 < fuel)%nat → inPhase fuel [1; 2; 3; 4; 5; 6] PI = Done [2; 3; 4; 5]%Z.
Proof.
  intros Hfuel. pose proof PI_RGT_0 as Hπ.
  assert (Ht1 : at_ [1; 2; 3; 4; 5; 6] 1 = 2) by reflexivity.
  assert (Hidx : ∀ n, phase_index 2 PI n = Z.of_nat n)
    by (intros n; apply phase_index_unit; lra).
  rewrite (inPhase_returns _ _ 6).
  - rewrite Ht1. unfold strobe. cbn [seq map length].
    rewrite !Hidx. reflexivity.
  - cbn [length]. lia.
  - rewrite Ht1. lra.
  - rewrite Ht1. cbn [length].
    apply first_overflow_succ; [lra | |]; rewrite Hidx; lia.
  - exact Hfuel.
Qed.

Lemma spec_strobe_1_to_6 :
  spec_first_overflow [1; 2; 3; 4; 5; 6] PI 3 ∧
  spec_strobe [1; 2; 3; 4; 5; 6] PI 3 = [2; 4]%Z.
Proof.
  pose proof PI_RGT_0 as Hπ.
  unfold spec_first_overflow, spec_strobe, at_. cbn [nth length].
  assert (Hidx : ∀ n, phase_index (2 - 1) PI n = Z.of_nat (2 * n))
    by (intros n; apply phase_index_double; lra).
  split.
  - apply first_overflow_succ; [lra | |]; rewrite Hidx; lia.
  - unfold strobe. cbn [seq map]. rewrite !Hidx. reflexivity.
Qed.

(** C3 (as amended): for every grid of at least two points with t[1] > 0
    and every Ω_D > 0, the loop returns exactly the indices
    m = floor(2πn/(t[1]·Ω_D) + 0.5) with 1 < m < len(t), for the successive
    n = 0, 1, 2, … below the first n whose m satisfies m ≥ len(t).  The
    divisor is the raw value t[1]; it is the spacing t[1] − t[0], and the
    result the one the spacing gives, when the grid starts at t[0] = 0. *)
Theorem inPhase_indices (longt : array) (ΩD : R) :
  (2 ≤ length longt)%nat → 0 < at_ longt 1 → 0 < ΩD →
  ∃ K, first_overflow (at_ longt 1) ΩD (length longt) K ∧
       (∀ fuel, (K < fuel)%nat →
          inPhase fuel longt ΩD =
          Done (strobe (at_ longt 1) ΩD (length longt) K)) ∧
       (at_ longt 0 = 0 →
          spec_first_overflow longt ΩD K ∧
          strobe (at_ longt 1) ΩD (length longt) K = spec_strobe longt ΩD K).
Proof.
  intros Hlen Ht1 HΩ.
  assert (Hpos : 0 < at_ longt 1 * ΩD) by now apply Rmult_lt_0_compat.
  destruct (first_overflow_exists _ _ (length longt) Hpos) as [K HK].
  exists K. split; [exact HK|]. split.
  - intros fuel Hfuel. now apply inPhase_returns.
  - intros Ht0. unfold spec_first_overflow, spec_strobe.
    rewrite Ht0, Rminus_0_r. split; [exact HK | reflexivity].
Qed.

Lemma inPhase_indices_witness :
  (2 ≤ length [0; 1; 2; 3])%nat ∧ 0 < at_ [0; 1; 2; 3] 1 ∧ 0 < PI ∧
  ∃ K, first_overflow (at_ [0; 1; 2; 3] 1) PI (length [0; 1; 2; 3]) K ∧
       (∀ fuel, (K < fuel)%nat →
          inPhase fuel [0; 1; 2; 3] PI =
          Done (strobe (at_ [0; 1; 2; 3] 1) PI (length [0; 1; 2; 3]) K)) ∧
       (at_ [0; 1; 2; 3] 0 = 0 →
          spec_first_overflow [0; 1; 2; 3] PI K ∧
          strobe (at_ [0; 1; 2; 3] 1) PI (length [0; 1; 2; 3]) K =
          spec_strobe [0; 1; 2; 3] PI K).
Proof.
  assert (Hlen : (2 ≤ length [0; 1; 2; 3])%nat) by (cbn [length]; lia).
  assert (Ht1 : 0 < at_ [0; 1; 2; 3] 1) by (unfold at_; cbn [nth]; lra).
  split; [exact Hlen|]. split; [exact Ht1|]. split; [exact PI_RGT_0|].
  exact (inPhase_indices [0; 1; 2; 3] PI Hlen Ht1 PI_RGT_0).
Defined.

(** C3, the claim as stated fails on a grid that does not start at zero.
    The grid [1, …, 6] is uniform with spacing 1 and Ω_D = π > 0; the
    spacing gives the indices m = 2n, of which 2 and 4 are selected before
    m = 6 ends the generation, but the loop divides by t[1] = 2, gets
    m = n, and returns 2, 3, 4, 5. *)
Lemma inPhase_indices_counterexample :
  uniform [1; 2; 3; 4; 5; 6] 1 ∧ 0 < PI ∧
  inPhase 7 [1; 2; 3; 4; 5; 6] PI = Done [2; 3; 4; 5]%Z ∧
  spec_first_overflow [1; 2; 3; 4; 5; 6] PI 3 ∧
  spec_strobe [1; 2; 3; 4; 5; 6] PI 3 = [2; 4]%Z.
Proof.
  split; [exact uniform_1_to_6|]. split; [exact PI_RGT_0|].
  split; [apply inPhase_1_to_6; lia | exact spec_strobe_1_to_6].
Qed.

(** C9 (as amended): for every grid of at least two points with t[1] > 0
    and every Ω_D > 0 the loop ends: the index grows with n, some first n
    = K reaches len(t), and with more than K units of fuel (K + 1
    iterations) the loop has returned its finite list. *)
Theorem inPhase_terminates (longt : array) (ΩD : R) :
  (2 ≤ length longt)%nat → 0 < at_ longt 1 → 0 < ΩD →
  (∀ n n', (n ≤ n')%nat →
     (phase_index (at_ longt 1) ΩD n ≤ phase_index (at_ longt 1) ΩD n')%Z) ∧
  ∃ K l, ∀ fuel, (K < fuel)%nat → inPhase fuel longt ΩD = Done l.
Proof.
  intros Hlen Ht1 HΩ.
  assert (Hpos : 0 < at_ longt 1 * ΩD) by now apply Rmult_lt_0_compat.
  split.
  - intros n n' Hle. now apply phase_index_mono.
  - destruct (first_overflow_exists _ _ (length longt) Hpos) as [K HK].
    exists K, (strobe (at_ longt 1) ΩD (length longt) K).
    intros fuel Hfuel. now apply inPhase_returns.
Qed.

Lemma inPhase_terminates_witness :
  (2 ≤ length [0; 1; 2; 3])%nat ∧ 0 < at_ [0; 1; 2; 3] 1 ∧ 0 < PI ∧
  ∃ K l, ∀ fuel, (K < fuel)%nat → inPhase fuel [0; 1; 2; 3] PI = Done l.
Proof.
  assert (Hlen : (2 ≤ length [0; 1; 2; 3])%nat) by (cbn [length]; lia).
  assert (Ht1 : 0 < at_ [0; 1; 2; 3] 1) by (unfold at_; cbn [nth]; lra).
  split; [exact Hlen|]. split; [exact Ht1|]. split; [exact PI_RGT_0|].
  exact (proj2 (inPhase_terminates [0; 1; 2; 3] PI Hlen Ht1 PI_RGT_0)).
Defined.

Lemma uniform_m2_m1_0 : uniform [-2; -1; 0] 1.
Proof.
  intros n Hn. cbn [length] in Hn. unfold at_.
  destruct n as [| [| n]]; [| | lia]; cbn [Nat.add nth]; lra.
Qed.

(** C9, the claim as stated fails on a grid of positive spacing whose
    second point is negative: on [−2, −1, 0] with Ω_D = 1 every index is at
    most 0, so the loop neither appends nor breaks, whatever the fuel. *)
Lemma inPhase_terminates_counterexample :
  uniform [-2; -1; 0] 1 ∧ 0 < 1 ∧
  ∀ fuel, inPhase fuel [-2; -1; 0] 1 = OutOfFuel.
Proof.
  split; [exact uniform_m2_m1_0|]. split; [lra|].
  intros fuel. unfold inPhase. apply inPhase_loop_stuck.
  - cbn [length]. lia.
  - intros n. apply inPhase_index_neg.
    + cbn [length]. lia.
    + unfold at_. cbn [nth]. lra.
Qed.

(** C4 (as amended): no check of Ω_D is made.  With Ω_D ≤ 0 on a grid of
    at least two points: if t[1]·Ω_D = 0 (in particular if Ω_D = 0) the
    first conversion [int(nan)] raises [ValueError] and no index is
    generated; if Ω_D < 0 and t[1] > 0 nothing is raised and the loop never
    exits; if Ω_D < 0 and t[1] < 0 the loop ends and returns indices. *)
Theorem inPhase_nonpositive_frequency (longt : array) (ΩD : R) :
  (2 ≤ length longt)%nat → ΩD <= 0 →
  (at_ longt 1 * ΩD = 0 →
     ∀ fuel, inPhase (S fuel) longt ΩD = Failed ValueError) ∧
  (ΩD < 0 → 0 < at_ longt 1 →
     ∀ fuel, inPhase fuel longt ΩD = OutOfFuel) ∧
  (ΩD < 0 → at_ longt 1 < 0 →
     ∃ K, ∀ fuel, (K < fuel)%nat →
       inPhase fuel longt ΩD =
       Done (strobe (at_ longt 1) ΩD (length longt) K)).
Proof.
  intros Hlen HΩ. split; [|split].
  - intros Hz fuel. unfold inPhase. cbn [inPhase_loop].
    now rewrite inPhase_index_nan.
  - intros Hneg Ht1 fuel. unfold inPhase. apply inPhase_loop_stuck.
    + exact Hlen.
    + intros n. apply inPhase_index_neg; [exact Hlen | nra].
  - intros Hneg Ht1.
    assert (Hpos : 0 < at_ longt 1 * ΩD) by nra.
    destruct (first_overflow_exists _ _ (length longt) Hpos) as [K HK].
    exists K. intros fuel Hfuel. now apply inPhase_returns.
Qed.

Lemma inPhase_nonpositive_frequency_witness :
  (2 ≤ length [0; 1])%nat ∧ 0 <= 0 ∧ -1 <= 0 ∧
  (∀ fuel, inPhase (S fuel) [0; 1] 0 = Failed ValueError) ∧
  (∀ fuel, inPhase fuel [0; 1] (-1) = OutOfFuel).
Proof.
  assert (Hlen : (2 ≤ length [0; 1])%nat) by (cbn [length]; lia).
  assert (H0 : 0 <= 0) by lra.
  assert (H1 : -1 <= 0) by lra.
  split; [exact Hlen|]. split; [exact H0|]. split; [exact H1|]. split.
  - apply (proj1 (inPhase_nonpositive_frequency [0; 1] 0 Hlen H0)).
    unfold at_. cbn [nth]. lra.
  - apply (proj1 (proj2 (inPhase_nonpositive_frequency [0; 1] (-1) Hlen H1))).
    + lra.
    + unfold at_. cbn [nth]. lra.
Defined.

(** C4, the claim as stated fails for a negative Ω_D: on the grid [0, 1]
    with Ω_D = −1 no error is raised, index generation is attempted, and
    the loop runs without end. *)
Lemma inPhase_nonpositive_frequency_counterexample :
  -1 <= 0 ∧ ∀ fuel, inPhase fuel [0; 1] (-1) = OutOfFuel.
Proof.
  split; [lra|]. intros fuel. unfold inPhase. apply inPhase_loop_stuck.
  - cbn [length]. lia.
  - intros n. apply inPhase_index_neg.
    + cbn [length]. lia.
    + unfold at_. cbn [nth]. lra.
Qed.

(** ** The grid [0, 1, 2, 3] sampled at Ω_D = 4π/3 and at Ω_D = 4π *)

Lemma inPhase_midway (fuel : nat) :
  (3 < fuel)%nat → inPhase fuel [0; 1; 2; 3] (4 * PI / 3) = Done [2; 3]%Z.
Proof.
  intros Hfuel. pose proof PI_RGT_0 as Hπ.
  assert (Ht1 : at_ [0; 1; 2; 3] 1 = 1) by reflexivity.
  assert (Hidx : ∀ n, phase_index 1 (4 * PI / 3) n
                      = Zfloor (3 / 2 * INR n + 0.5))
    by (intros n; apply phase_index_ratio; lra).
  assert (H0 : phase_index 1 (4 * PI / 3) 0 = 0%Z) by (rewrite Hidx; floor_eval).
  assert (H1 : phase_index 1 (4 * PI / 3) 1 = 2%Z) by (rewrite Hidx; floor_eval).
  assert (H2 : phase_index 1 (4 * PI / 3) 2 = 3%Z) by (rewrite Hidx; floor_eval).
  assert (H3 : phase_index 1 (4 * PI / 3) 3 = 5%Z) by (rewrite Hidx; floor_eval).
  rewrite (inPhase_returns _ _ 3).
  - rewrite Ht1. unfold strobe. cbn [seq map length].
    rewrite H0, H1, H2. reflexivity.
  - cbn [length]. lia.
  - rewrite Ht1. lra.
  - rewrite Ht1. cbn [length].
    apply first_overflow_succ; [lra | rewrite H2; lia | rewrite H3; lia].
  - exact Hfuel.
Qed.

(** No in-phase time is strictly within half a step of [t[2]]. *)
Lemma midway_not_strict (n : nat) :
  ¬ Rabs (at_ [0; 1; 2; 3] 2 - 2 * PI * INR n / (4 * PI / 3)) < 1 / 2.
Proof.
  pose proof PI_RGT_0 as Hπ.
  replace (2 * PI * INR n / (4 * PI / 3)) with (3 / 2 * INR n)
    by (field; lra).
  unfold at_. cbn [nth]. intros Habs. apply Rabs_def2 in Habs.
  destruct n as [| [| n]].
  - cbn [INR] in Habs. lra.
  - cbn [INR] in Habs. lra.
  - rewrite !S_INR in Habs. pose proof (pos_INR n). lra.
Qed.

Lemma inPhase_repeats (fuel : nat) :
  (7 < fuel)%nat → inPhase fuel [0; 1; 2; 3] (4 * PI) = Done [2; 2; 3; 3]%Z.
Proof.
  intros Hfuel. pose proof PI_RGT_0 as Hπ.
  assert (Ht1 : at_ [0; 1; 2; 3] 1 = 1) by reflexivity.
  assert (Hidx : ∀ n, phase_index 1 (4 * PI) n
                      = Zfloor (1 / 2 * INR n + 0.5))
    by (intros n; apply phase_index_ratio; lra).
  assert (H0 : phase_index 1 (4 * PI) 0 = 0%Z) by (rewrite Hidx; floor_eval).
  assert (H1 : phase_index 1 (4 * PI) 1 = 1%Z) by (rewrite Hidx; floor_eval).
  assert (H2 : phase_index 1 (4 * PI) 2 = 1%Z) by (rewrite Hidx; floor_eval).
  assert (H3 : phase_index 1 (4 * PI) 3 = 2%Z) by (rewrite Hidx; floor_eval).
  assert (H4 : phase_index 1 (4 * PI) 4 = 2%Z) by (rewrite Hidx; floor_eval).
  assert (H5 : phase_index 1 (4 * PI) 5 = 3%Z) by (rewrite Hidx; floor_eval).
  assert (H6 : phase_index 1 (4 * PI) 6 = 3%Z) by (rewrite Hidx; floor_eval).
  assert (H7 : phase_index 1 (4 * PI) 7 = 4%Z) by (rewrite Hidx; floor_eval).
  rewrite (inPhase_returns _ _ 7).
  - rewrite Ht1. unfold strobe. cbn [seq map length].
    rewrite H0, H1, H2, H3, H4, H5, H6. reflexivity.
  - cbn [length]. lia.
  - rewrite Ht1. lra.
  - rewrite Ht1. cbn [length].
    apply first_overflow_succ; [lra | rewrite H6; lia | rewrite H7; lia].
  - exact Hfuel.
Qed.

Lemma repeats_not_increasing : ¬ StronglySorted Z.lt [2; 2; 3; 3]%Z.
Proof.
  intros Hs. apply StronglySorted_inv in Hs as [_ Hall].
  apply Forall_inv in Hall. lia.
Qed.

(** C5 (as amended): on a uniform grid that starts at zero (t[k] = k·Δt,
    Δt > 0) and for Ω_D > 0, the loop returns at most one index per n;
    every returned index m comes from an n with
    |t[m] − 2πn/Ω_D| ≤ Δt/2 (not strictly: the two are Δt/2 apart when the
    phase falls midway between grid points); the returned sequence is
    non-decreasing, and strictly increasing when 2π/(Δt·Ω_D) ≥ 1. *)
Theorem inPhase_near_phase (longt : array) (ΩD Δt : R) :
  (2 ≤ length longt)%nat → 0 < Δt → 0 < ΩD → uniform_from_zero longt Δt →
  ∃ K l,
    (∀ fuel, (K < fuel)%nat → inPhase fuel longt ΩD = Done l) ∧
    l = strobe Δt ΩD (length longt) K ∧
    (∀ m, In m l →
       ∃ n, (n < K)%nat ∧ m = phase_index Δt ΩD n ∧
            Rabs (at_ longt (Z.to_nat m) - 2 * PI * INR n / ΩD) <= Δt / 2) ∧
    StronglySorted Z.le l ∧
    (1 <= 2 * PI / (Δt * ΩD) → StronglySorted Z.lt l).
Proof.
  intros Hlen HΔ HΩ Hgrid.
  assert (Ht1 : at_ longt 1 = Δt).
  { rewrite Hgrid by lia. cbn [INR]. lra. }
  assert (Hpos : 0 < Δt * ΩD) by now apply Rmult_lt_0_compat.
  destruct (first_overflow_exists Δt ΩD (length longt) Hpos) as [K HK].
  exists K, (strobe Δt ΩD (length longt) K). split; [|split; [|split; [|split]]].
  - intros fuel Hfuel. rewrite <- Ht1. apply inPhase_returns; try assumption.
    + rewrite Ht1. exact Hpos.
    + rewrite Ht1. exact HK.
  - reflexivity.
  - intros m Hm. apply strobe_In in Hm as (n & Hn & -> & H1 & H2).
    exists n. split; [exact Hn|]. split; [reflexivity|].
    apply phase_time_near; try assumption. lia.
  - now apply strobe_sorted.
  - intros Hc. now apply strobe_strictly_sorted.
Qed.

Lemma Rabs_half_step : Rabs (2 - 3 / 2) = 1 / 2.
Proof. rewrite Rabs_pos_eq by lra. lra. Qed.

(** The grid [0, 1, …, 6] sampled at Ω_D = 4π/3: the phases 3n/2 fall
    midway between grid points for odd n. *)
Lemma uniform_from_zero_0_to_6 : uniform_from_zero [0; 1; 2; 3; 4; 5; 6] 1.
Proof.
  intros k Hk. cbn [length] in Hk. unfold at_.
  destruct k as [| [| [| [| [| [| [| k]]]]]]]; [| | | | | | | lia];
    cbn [nth INR]; lra.
Qed.

Lemma inPhase_0_to_6 (fuel : nat) :
  (5 < fuel)%nat →
  inPhase fuel [0; 1; 2; 3; 4; 5; 6] (4 * PI / 3) = Done [2; 3; 5; 6]%Z.
Proof.
  intros Hfuel. pose proof PI_RGT_0 as Hπ.
  assert (Ht1 : at_ [0; 1; 2; 3; 4; 5; 6] 1 = 1) by reflexivity.
  assert (Hidx : ∀ n, phase_index 1 (4 * PI / 3) n
                      = Zfloor (3 / 2 * INR n + 0.5))
    by (intros n; apply phase_index_ratio; lra).
  assert (H0 : phase_index 1 (4 * PI / 3) 0 = 0%Z) by (rewrite Hidx; floor_eval).
  assert (H1 : phase_index 1 (4 * PI / 3) 1 = 2%Z) by (rewrite Hidx; floor_eval).
  assert (H2 : phase_index 1 (4 * PI / 3) 2 = 3%Z) by (rewrite Hidx; floor_eval).
  assert (H3 : phase_index 1 (4 * PI / 3) 3 = 5%Z) by (rewrite Hidx; floor_eval).
  assert (H4 : phase_index 1 (4 * PI / 3) 4 = 6%Z) by (rewrite Hidx; floor_eval).
  assert (H5 : phase_index 1 (4 * PI / 3) 5 = 8%Z) by (rewrite Hidx; floor_eval).
  rewrite (inPhase_returns _ _ 5).
  - rewrite Ht1. unfold strobe. cbn [seq map length].
    rewrite H0, H1, H2, H3, H4. reflexivity.
  - cbn [length]. lia.
  - rewrite Ht1. lra.
  - rewrite Ht1. cbn [length].
    apply first_overflow_succ; [lra | rewrite H4; lia | rewrite H5; lia].
  - exact Hfuel.
Qed.

(** Two runs.  On [0, …, 6] at Ω_D = 4π/3 the loop returns 2, 3, 5, 6,
    strictly increasing, and the index 2 (from n = 1) is exactly Δt/2 from
    its in-phase time 3/2.  On [0, 1, 2, 3] at Ω_D = 4π, where
    2π/(Δt·Ω_D) = 1/2, it returns 2, 2, 3, 3, non-decreasing only. *)
Lemma inPhase_near_phase_witness :
  ((2 ≤ length [0; 1; 2; 3; 4; 5; 6])%nat ∧ 0 < 1 ∧ 0 < 4 * PI / 3 ∧
   uniform_from_zero [0; 1; 2; 3; 4; 5; 6] 1 ∧
   1 <= 2 * PI / (1 * (4 * PI / 3)) ∧
   Rabs (at_ [0; 1; 2; 3; 4; 5; 6] (Z.to_nat 2)
         - 2 * PI * INR 1 / (4 * PI / 3)) = 1 / 2 ∧
   ∃ K l,
     l = [2; 3; 5; 6]%Z ∧ StronglySorted Z.lt l ∧
     (∀ fuel, (K < fuel)%nat →
        inPhase fuel [0; 1; 2; 3; 4; 5; 6] (4 * PI / 3) = Done l) ∧
     l = strobe 1 (4 * PI / 3) (length [0; 1; 2; 3; 4; 5; 6]) K ∧
     (∀ m, In m l →
        ∃ n, (n < K)%nat ∧ m = phase_index 1 (4 * PI / 3) n ∧
             Rabs (at_ [0; 1; 2; 3; 4; 5; 6] (Z.to_nat m)
                   - 2 * PI * INR n / (4 * PI / 3)) <= 1 / 2) ∧
     StronglySorted Z.le l ∧
     (1 <= 2 * PI / (1 * (4 * PI / 3)) → StronglySorted Z.lt l)) ∧
  ((2 ≤ length [0; 1; 2; 3])%nat ∧ 0 < 1 ∧ 0 < 4 * PI ∧
   uniform_from_zero [0; 1; 2; 3] 1 ∧
   2 * PI / (1 * (4 * PI)) < 1 ∧
   ∃ K l,
     l = [2; 2; 3; 3]%Z ∧
     (∀ fuel, (K < fuel)%nat → inPhase fuel [0; 1; 2; 3] (4 * PI) = Done l) ∧
     l = strobe 1 (4 * PI) (length [0; 1; 2; 3]) K ∧
     (∀ m, In m l →
        ∃ n, (n < K)%nat ∧ m = phase_index 1 (4 * PI) n ∧
             Rabs (at_ [0; 1; 2; 3] (Z.to_nat m) - 2 * PI * INR n / (4 * PI))
               <= 1 / 2) ∧
     StronglySorted Z.le l ∧
     (1 <= 2 * PI / (1 * (4 * PI)) → StronglySorted Z.lt l)).
Proof.
  pose proof PI_RGT_0 as Hπ.
  assert (HΔ : 0 < 1) by lra.
  split.
  - assert (Hlen : (2 ≤ length [0; 1; 2; 3; 4; 5; 6])%nat)
      by (cbn [length]; lia).
    assert (HΩ : 0 < 4 * PI / 3) by lra.
    assert (Hc : 1 <= 2 * PI / (1 * (4 * PI / 3))).
    { replace (2 * PI / (1 * (4 * PI / 3))) with (3 / 2) by (field; lra). lra. }
    split; [exact Hlen|]. split; [exact HΔ|]. split; [exact HΩ|].
    split; [exact uniform_from_zero_0_to_6|]. split; [exact Hc|]. split.
    { replace (2 * PI * INR 1 / (4 * PI / 3)) with (3 / 2)
        by (cbn [INR]; field; lra).
      unfold at_. cbn [Z.to_nat Pos.to_nat Pos.iter_op Nat.add nth].
      apply Rabs_half_step. }
    destruct (inPhase_near_phase [0; 1; 2; 3; 4; 5; 6] (4 * PI / 3) 1
                Hlen HΔ HΩ uniform_from_zero_0_to_6)
      as (K & l & Hrun & Hl & Hnear & Hle & Hlt).
    assert (El : l = [2; 3; 5; 6]%Z).
    { pose proof (Hrun (K + 6)%nat ltac:(lia)) as H1.
      rewrite inPhase_0_to_6 in H1 by lia. now injection H1. }
    exists K, l. split; [exact El|]. split; [exact (Hlt Hc)|].
    split; [exact Hrun|]. split; [exact Hl|]. split; [exact Hnear|].
    split; [exact Hle | exact Hlt].
  - assert (Hlen : (2 ≤ length [0; 1; 2; 3])%nat) by (cbn [length]; lia).
    assert (HΩ : 0 < 4 * PI) by lra.
    split; [exact Hlen|]. split; [exact HΔ|]. split; [exact HΩ|].
    split; [exact uniform_from_zero_0_1_2_3|]. split.
    { replace (2 * PI / (1 * (4 * PI))) with (1 / 2) by (field; lra). lra. }
    destruct (inPhase_near_phase [0; 1; 2; 3] (4 * PI) 1
                Hlen HΔ HΩ uniform_from_zero_0_1_2_3)
      as (K & l & Hrun & Hl & Hnear & Hle & Hlt).
    assert (El : l = [2; 2; 3; 3]%Z).
    { pose proof (Hrun (K + 8)%nat ltac:(lia)) as H1.
      rewrite inPhase_repeats in H1 by lia. now injection H1. }
    exists K, l. split; [exact El|]. split; [exact Hrun|].
    split; [exact Hl|]. split; [exact Hnear|]. split; [exact Hle | exact Hlt].
Defined.

(** C5, the claim as stated fails on the uniform grid [0, 1, 2, 3]
    (Δt = 1).  With Ω_D = 4π/3 the loop returns 2 and 3; the index 2 comes
    from n = 1, whose in-phase time 3/2 is exactly Δt/2 from t[2], and no
    n is strictly nearer.  With Ω_D = 4π, where 2π/(Δt·Ω_D) = 1/2 < 1, the
    loop returns 2, 2, 3, 3, which is not strictly increasing. *)
Lemma inPhase_near_phase_counterexample :
  uniform_from_zero [0; 1; 2; 3] 1 ∧
  (inPhase 4 [0; 1; 2; 3] (4 * PI / 3) = Done [2; 3]%Z ∧
   phase_index 1 (4 * PI / 3) 1 = 2%Z ∧
   ∀ n, ¬ Rabs (at_ [0; 1; 2; 3] 2 - 2 * PI * INR n / (4 * PI / 3)) < 1 / 2) ∧
  (inPhase 8 [0; 1; 2; 3] (4 * PI) = Done [2; 2; 3; 3]%Z ∧
   2 * PI / (1 * (4 * PI)) < 1 ∧
   ¬ StronglySorted Z.lt [2; 2; 3; 3]%Z).
Proof.
  pose proof PI_RGT_0 as Hπ.
  split; [exact uniform_from_zero_0_1_2_3|]. split; [split; [|split]|split; [|split]].
  - apply inPhase_midway. lia.
  - rewrite (phase_index_ratio 1 (4 * PI / 3) (3 / 2)) by lra. floor_eval.
  - exact midway_not_strict.
  - apply inPhase_repeats. lia.
  - replace (2 * PI / (1 * (4 * PI))) with (1 / 2) by (field; lra). lra.
  - exact repeats_not_increasing.
Qed.

(** * Further properties of the notebook's code *)

(** ** The in-phase indices as array indices *)

Lemma inPhase_loop_bounds (longt : array) (ΩD : R) (fuel : nat) :
  ∀ (n : nat) (acc l : list Z),
    Forall (λ m, 1 < m < Z.of_nat (length longt))%Z acc →
    inPhase_loop fuel longt ΩD n acc = Done l →
    Forall (λ m, 1 < m < Z.of_nat (length longt))%Z l.
Proof.
  induction fuel as [| fuel IH]; intros n acc l Hacc Hrun.
  - discriminate.
  - cbn [inPhase_loop] in Hrun.
    destruct (inPhase_index longt ΩD n) as [m | e]; [|discriminate].
    destruct ((1 <? m) && (m <? Z.of_nat (length longt)))%Z eqn:Esel.
    + apply andb_true_iff in Esel as [H1 H2]. apply Z.ltb_lt in H1, H2.
      apply (IH (n + 1)%nat (acc ++ [m]) l); [|exact Hrun].
      apply Forall_app. split; [exact Hacc|].
      constructor; [lia | constructor].
    + destruct (m >=? Z.of_nat (length longt))%Z.
      * injection Hrun as <-. exact Hacc.
      * exact (IH _ _ _ Hacc Hrun).
Qed.

(** X1: whatever the grid and the frequency, every index the loop returns
    satisfies 1 < m < len(longt): the indices 0 and 1 are never returned,
    and none lies past the end of the grid. *)
Theorem inPhase_in_bounds (fuel : nat) (longt : array) (ΩD : R) (l : list Z) :
  inPhase fuel longt ΩD = Done l →
  Forall (λ m, 1 < m < Z.of_nat (length longt))%Z l.
Proof.
  intros Hrun.
  apply (inPhase_loop_bounds longt ΩD fuel 0 [] l); [constructor | exact Hrun].
Qed.

(** The returned indices as indices into an array of the grid's length. *)
Lemma inPhase_Done_valid (fuel : nat) (longt : array) (ΩD : R) (l : list Z) :
  inPhase fuel longt ΩD = Done l →
  Forall (λ m, 0 ≤ m < Z.of_nat (length longt))%Z l.
Proof.
  intros Hrun.
  apply (inPhase_loop_bounds longt ΩD fuel 0 [] l) in Hrun; [|constructor].
  eapply Forall_impl; [exact Hrun|]. intros m Hm. cbv beta in *. lia.
Qed.

Lemma inPhase_in_bounds_witness :
  inPhase 7 [1; 2; 3; 4; 5; 6] PI = Done [2; 3; 4; 5]%Z ∧
  Forall (λ m, 1 < m < Z.of_nat (length [1; 2; 3; 4; 5; 6]))%Z [2; 3; 4; 5]%Z.
Proof.
  assert (Hrun : inPhase 7 [1; 2; 3; 4; 5; 6] PI = Done [2; 3; 4; 5]%Z)
    by (apply inPhase_1_to_6; lia).
  split; [exact Hrun|].
  exact (inPhase_in_bounds 7 [1; 2; 3; 4; 5; 6] PI [2; 3; 4; 5]%Z Hrun).
Defined.

(** Reading at an index within bounds. *)
Lemma getitem_int_in_bounds (a : array) (m : Z) :
  (0 ≤ m < Z.of_nat (length a))%Z →
  getitem_int a m = Ok (at_ a (Z.to_nat m)).
Proof.
  intros [Hlo Hhi]. unfold getitem_int.
  destruct (Z.leb_spec 0 m) as [_ | H]; [|lia].
  apply getitem_lt. lia.
Qed.

Lemma take_indices_in_bounds (a : array) (idx : list Z) :
  Forall (λ m, 0 ≤ m < Z.of_nat (length a))%Z idx →
  take_indices a idx = Ok (map (λ m, at_ a (Z.to_nat m)) idx).
Proof.
  induction 1 as [| m idx Hm _ IH]; [reflexivity|].
  cbn [take_indices map]. rewrite getitem_int_in_bounds by exact Hm. run.
  rewrite IH. reflexivity.
Qed.

(** An index past either end raises. *)
Lemma getitem_int_out_of_bounds (a : array) (m : Z) :
  (m < - Z.of_nat (length a) ∨ Z.of_nat (length a) ≤ m)%Z →
  getitem_int a m = Raise IndexError.
Proof.
  intros Hm. unfold getitem_int.
  destruct (Z.leb_spec 0 m) as [H0 | H0].
  - apply getitem_ge. lia.
  - destruct (Z.leb_spec (- Z.of_nat (length a)) m) as [H1 | H1];
      [lia | reflexivity].
Qed.

(** X2: the list of in-phase indices returned by the loop indexes any array
    of the length of the grid without an [IndexError]: [longt[inPhase]]
    returns the grid times at those indices, in order, one per index. *)
Theorem inPhaset_defined (fuel : nat) (longt a : array) (ΩD : R) (l : list Z) :
  inPhase fuel longt ΩD = Done l → length a = length longt →
  take_indices a l = Ok (map (λ m, at_ a (Z.to_nat m)) l) ∧
  inPhaset longt l = Ok (map (λ m, at_ longt (Z.to_nat m)) l).
Proof.
  intros Hrun Hlen. apply inPhase_Done_valid in Hrun.
  split; [rewrite <- Hlen in Hrun | unfold inPhaset];
    now apply take_indices_in_bounds.
Qed.

Lemma inPhaset_defined_witness :
  inPhase 7 [1; 2; 3; 4; 5; 6] PI = Done [2; 3; 4; 5]%Z ∧
  inPhaset [1; 2; 3; 4; 5; 6] [2; 3; 4; 5]%Z = Ok [3; 4; 5; 6].
Proof.
  assert (Hrun : inPhase 7 [1; 2; 3; 4; 5; 6] PI = Done [2; 3; 4; 5]%Z)
    by (apply inPhase_1_to_6; lia).
  split; [exact Hrun|].
  exact (proj2 (inPhaset_defined 7 [1; 2; 3; 4; 5; 6] [1; 2; 3; 4; 5; 6] PI
                  [2; 3; 4; 5]%Z Hrun eq_refl)).
Defined.

(** ** A grid step that divides the driving period *)

Lemma filter_all (p : Z → bool) (l : list Z) :
  Forall (λ x, p x = true) l → List.filter p l = l.
Proof.
  induction 1 as [| x l Hx _ IH]; [reflexivity|].
  cbn [List.filter]. now rewrite Hx, IH.
Qed.

Lemma phase_index_whole (d ΩD : R) (p n : nat) :
  d * ΩD ≠ 0 → 2 * PI = INR p * (d * ΩD) →
  phase_index d ΩD n = Z.of_nat (p * n).
Proof.
  intros Hnz Hc. rewrite (phase_index_ratio d ΩD (INR p)) by assumption.
  apply Zfloor_eq. rewrite <- INR_IZR_INZ, mult_INR. lra.
Qed.

(** The number of whole periods that start within [len] grid steps. *)
Lemma periods_within (p len : nat) :
  (1 ≤ p)%nat →
  (len ≤ p * ((len + p - 1) / p))%nat ∧
  ∀ n, (n < (len + p - 1) / p)%nat → (p * n < len)%nat.
Proof.
  intros Hp.
  pose proof (Nat.div_mod (len + p - 1) p ltac:(lia)) as Hdm.
  pose proof (Nat.mod_upper_bound (len + p - 1) p ltac:(lia)) as Hr.
  split; [nia|]. intros n Hn. nia.
Qed.

Lemma strobe_whole (d ΩD : R) (p len : nat) :
  d * ΩD ≠ 0 → 2 * PI = INR p * (d * ΩD) → (2 ≤ p)%nat → (1 ≤ len)%nat →
  first_overflow d ΩD len ((len + p - 1) / p) ∧
  strobe d ΩD len ((len + p - 1) / p) = multiples p ((len + p - 1) / p).
Proof.
  intros Hnz Hc Hp Hlen.
  destruct (periods_within p len ltac:(lia)) as [Hov Hlt].
  set (K := ((len + p - 1) / p)%nat) in *.
  assert (HK : (1 ≤ K)%nat) by (destruct K; [lia | lia]).
  split.
  - split.
    + rewrite (phase_index_whole d ΩD p) by assumption. lia.
    + intros n Hn. rewrite (phase_index_whole d ΩD p) by assumption.
      specialize (Hlt n Hn). lia.
  - unfold strobe, multiples.
    rewrite (map_ext _ _ (λ n, phase_index_whole d ΩD p n Hnz Hc)).
    replace K with (S (K - 1)) at 1 by lia.
    cbn [seq map List.filter]. rewrite Nat.mul_0_r. cbn [Z.of_nat Z.ltb andb].
    apply filter_all. apply List.Forall_forall. intros m Hm.
    apply in_map_iff in Hm as (n & <- & Hn). apply in_seq in Hn.
    specialize (Hlt n ltac:(lia)).
    apply andb_true_iff. split; apply Z.ltb_lt; nia.
Qed.

(** The run of the loop when the second grid point is an exact [p]-th of
    the driving period. *)
Lemma inPhase_whole_run (longt : array) (ΩD : R) (p : nat) :
  (2 ≤ length longt)%nat → 0 < ΩD → (2 ≤ p)%nat →
  at_ longt 1 = 2 * PI / (ΩD * INR p) →
  ∀ fuel, ((length longt + p - 1) / p < fuel)%nat →
    inPhase fuel longt ΩD = Done (multiples p ((length longt + p - 1) / p)).
Proof.
  intros Hlen HΩ Hp Ht1 fuel Hfuel. pose proof PI_RGT_0 as Hπ.
  assert (HP : 0 < INR p) by (apply lt_0_INR; lia).
  assert (Hpos : 0 < at_ longt 1 * ΩD).
  { rewrite Ht1. replace (2 * PI / (ΩD * INR p) * ΩD) with (2 * PI / INR p)
      by (field; lra).
    apply Rdiv_lt_0_compat; lra. }
  assert (Hc : 2 * PI = INR p * (at_ longt 1 * ΩD))
    by (rewrite Ht1; field; lra).
  destruct (strobe_whole (at_ longt 1) ΩD p (length longt)
              ltac:(lra) Hc Hp ltac:(lia)) as [Hfirst Hlist].
  rewrite <- Hlist. now apply inPhase_returns.
Qed.

(** X3: when the second grid point is an exact [p]-th of the driving
    period, t[1] = 2π/(Ω_D·p) with p ≥ 2 (the notebook takes p = 100), the
    loop returns exactly the multiples p, 2p, 3p, … of p below len(longt),
    after ⌈len(longt)/p⌉ + 1 iterations. *)
Theorem inPhase_multiples (longt : array) (ΩD : R) (p : nat) :
  (2 ≤ length longt)%nat → 0 < ΩD → (2 ≤ p)%nat →
  at_ longt 1 = 2 * PI / (ΩD * INR p) →
  ∀ fuel, ((length longt + p - 1) / p < fuel)%nat →
    inPhase fuel longt ΩD = Done (multiples p ((length longt + p - 1) / p)).
Proof.
  intros Hlen HΩ Hp Ht1 fuel Hfuel. now apply inPhase_whole_run.
Qed.

Lemma inPhase_multiples_witness :
  (2 ≤ length [0; 1; 2; 3; 4; 5; 6])%nat ∧ 0 < PI ∧ (2 ≤ 2)%nat ∧
  at_ [0; 1; 2; 3; 4; 5; 6] 1 = 2 * PI / (PI * INR 2) ∧
  inPhase 5 [0; 1; 2; 3; 4; 5; 6] PI = Done [2; 4; 6]%Z.
Proof.
  assert (Hlen : (2 ≤ length [0; 1; 2; 3; 4; 5; 6])%nat) by (cbn [length]; lia).
  assert (Hp : (2 ≤ 2)%nat) by lia.
  assert (Ht1 : at_ [0; 1; 2; 3; 4; 5; 6] 1 = 2 * PI / (PI * INR 2)).
  { pose proof PI_RGT_0. unfold at_. cbn [nth INR]. field. lra. }
  split; [exact Hlen|]. split; [exact PI_RGT_0|]. split; [exact Hp|].
  split; [exact Ht1|].
  apply (inPhase_multiples [0; 1; 2; 3; 4; 5; 6] PI 2 Hlen PI_RGT_0 Hp Ht1 5).
  cbn. lia.
Defined.

(** X4: on a uniform grid that starts at zero with a step that is an exact
    [p]-th of the driving period (p ≥ 2), the sampled times
    [longt[inPhase]] are exactly the whole periods 2πn/Ω_D, n = 1, 2, …,
    that lie on the grid; the time 0 of the period n = 0 is not among
    them. *)
Theorem inPhaset_whole_periods (longt : array) (ΩD : R) (p : nat) :
  (2 ≤ length longt)%nat → 0 < ΩD → (2 ≤ p)%nat →
  uniform_from_zero longt (2 * PI / (ΩD * INR p)) →
  ∀ fuel, ((length longt + p - 1) / p < fuel)%nat →
    ∃ l, inPhase fuel longt ΩD = Done l ∧
         inPhaset longt l =
         Ok (map (λ n, 2 * PI * INR n / ΩD)
               (seq 1 ((length longt + p - 1) / p - 1))).
Proof.
  intros Hlen HΩ Hp Hgrid fuel Hfuel. pose proof PI_RGT_0 as Hπ.
  assert (HP : 0 < INR p) by (apply lt_0_INR; lia).
  assert (Ht1 : at_ longt 1 = 2 * PI / (ΩD * INR p)).
  { rewrite Hgrid by lia. cbn [INR]. lra. }
  pose proof (inPhase_whole_run longt ΩD p Hlen HΩ Hp Ht1 fuel Hfuel) as Hrun.
  eexists. split; [exact Hrun|].
  unfold inPhaset.
  rewrite take_indices_in_bounds by exact (inPhase_Done_valid _ _ _ _ Hrun).
  f_equal. unfold multiples. rewrite map_map.
  apply map_ext_in. intros n Hn. apply in_seq in Hn.
  destruct (periods_within p (length longt) ltac:(lia)) as [_ Hlt].
  rewrite Nat2Z.id, Hgrid by (apply Hlt; lia).
  rewrite mult_INR. field. lra.
Qed.

Lemma inPhaset_whole_periods_witness :
  (2 ≤ length [0; 1; 2; 3])%nat ∧ 0 < PI ∧ (2 ≤ 2)%nat ∧
  uniform_from_zero [0; 1; 2; 3] (2 * PI / (PI * INR 2)) ∧
  ∃ l, inPhase 3 [0; 1; 2; 3] PI = Done l ∧
       inPhaset [0; 1; 2; 3] l = Ok (map (λ n, 2 * PI * INR n / PI) (seq 1 1)).
Proof.
  assert (Hlen : (2 ≤ length [0; 1; 2; 3])%nat) by (cbn [length]; lia).
  assert (Hp : (2 ≤ 2)%nat) by lia.
  assert (Hgrid : uniform_from_zero [0; 1; 2; 3] (2 * PI / (PI * INR 2))).
  { pose proof PI_RGT_0.
    replace (2 * PI / (PI * INR 2)) with 1 by (cbn [INR]; field; lra).
    exact uniform_from_zero_0_1_2_3. }
  split; [exact Hlen|]. split; [exact PI_RGT_0|]. split; [exact Hp|].
  split; [exact Hgrid|].
  apply (inPhaset_whole_periods [0; 1; 2; 3] PI 2 Hlen PI_RGT_0 Hp Hgrid 3).
  cbn. lia.
Defined.

(** ** What the wrap keeps *)

(** The wrap moves its argument by a whole number of turns: none, one
    forward or one back. *)
Lemma wrap_shift (x : R) :
  ∃ k : Z, (-1 ≤ k ≤ 1)%Z ∧ wrap x = x + 2 * PI * IZR k.
Proof.
  unfold wrap.
  destruct (Rlt_dec x (- PI)) as [Hlt | Hnlt];
    [destruct (Rge_dec (x + 2 * PI) PI) as [Hge | Hnge]
    |destruct (Rge_dec x PI) as [Hge | Hnge]].
  - exists 0%Z. split; [lia | lra].
  - exists 1%Z. split; [lia | lra].
  - exists (-1)%Z. split; [lia | lra].
  - exists 0%Z. split; [lia | lra].
Qed.

Lemma wrap_sin_cos (x : R) : sin (wrap x) = sin x ∧ cos (wrap x) = cos x.
Proof.
  destruct (wrap_shift x) as (k & Hk & ->).
  assert (Hcases : k = (-1)%Z ∨ k = 0%Z ∨ k = 1%Z) by lia.
  destruct Hcases as [-> | [-> | ->]].
  - replace (x + 2 * PI * -1) with (x - 2 * PI) by lra.
    rewrite sin_minus, cos_minus, sin_2PI, cos_2PI. split; ring.
  - replace (x + 2 * PI * 0) with x by lra. now split.
  - replace (x + 2 * PI * 1) with (x + 2 * PI) by lra.
    rewrite sin_plus, cos_plus, sin_2PI, cos_2PI. split; ring.
Qed.

(** X5: in every run of [euler], with no condition on the step size, the
    angle stored at step n+1 has the sine and the cosine of the unwrapped
    candidate θ[n] + Δt·ω[n+1]: wrapping never changes the force
    −(g/ℓ)·sin θ that the next step computes. *)
Theorem euler_wrap_keeps_direction (g : R) (t : array)
    (FD ℓ θ0 ω0 γ ΩD : R) (θ ω : array) (n : nat) :
  euler g t FD ℓ θ0 ω0 γ ΩD = Ok (θ, ω) → (n + 1 < length t)%nat →
  sin (at_ θ (n + 1)) = sin (at_ θ n + (at_ t 1 - at_ t 0) * at_ ω (n + 1)) ∧
  cos (at_ θ (n + 1)) = cos (at_ θ n + (at_ t 1 - at_ t 0) * at_ ω (n + 1)).
Proof.
  intros Heq Hn.
  apply euler_Ok_inv in Heq as (_ & _ & _ & _ & _ & _ & Hrec).
  cbn [fst snd] in Hrec. destruct (Hrec n ltac:(lia)) as [_ ->].
  apply wrap_sin_cos.
Qed.

(** The step that goes over the top: the candidate is 4, the stored angle
    is 4 − 2π, and both have the same sine and cosine. *)
Lemma euler_wrap_keeps_direction_witness :
  ∃ θ ω, euler g_std [0; 1; 2] 1.2 g_std 0 8 0.5 (2 / 3) = Ok (θ, ω) ∧
         (0 + 1 < length [0; 1; 2])%nat ∧
         at_ θ 0 + (at_ [0; 1; 2] 1 - at_ [0; 1; 2] 0) * at_ ω (0 + 1) = 4 ∧
         at_ θ (0 + 1) = 4 - 2 * PI ∧
         sin (at_ θ (0 + 1)) =
           sin (at_ θ 0 + (at_ [0; 1; 2] 1 - at_ [0; 1; 2] 0) * at_ ω (0 + 1)) ∧
         cos (at_ θ (0 + 1)) =
           cos (at_ θ 0 + (at_ [0; 1; 2] 1 - at_ [0; 1; 2] 0) * at_ ω (0 + 1)).
Proof.
  assert (HN : (2 ≤ length [0; 1; 2])%nat) by (cbn [length]; lia).
  assert (Hℓ : g_std ≠ 0) by (unfold g_std; lra).
  destruct (euler_returns g_std [0; 1; 2] 1.2 g_std 0 8 0.5 (2 / 3) Hℓ HN)
    as (θ & ω & Heq & _).
  destruct (euler_kick θ ω Heq) as (Eθ0 & _ & Eω1 & Eθ1 & _).
  assert (Hn : (0 + 1 < length [0; 1; 2])%nat) by (cbn [length]; lia).
  exists θ, ω. split; [exact Heq|]. split; [exact Hn|]. split.
  { unfold at_ at 2 3. cbn [nth Nat.add]. rewrite Eθ0, Eω1. lra. }
  split; [exact Eθ1|].
  exact (euler_wrap_keeps_direction g_std [0; 1; 2] 1.2 g_std 0 8 0.5 (2 / 3)
           θ ω 0 Heq Hn).
Defined.

(** X6: in every run of [euler] the stored angle θ[n] differs from the
    unwrapped angle θ0 + Δt·(ω[1] + … + ω[n]) by a whole number k of turns,
    and at most one turn is taken per step: |k| ≤ n. *)
Theorem euler_angle_up_to_turns (g : R) (t : array) (FD ℓ θ0 ω0 γ ΩD : R)
    (θ ω : array) (n : nat) :
  euler g t FD ℓ θ0 ω0 γ ΩD = Ok (θ, ω) → (n < length t)%nat →
  ∃ k : Z, (- Z.of_nat n ≤ k ≤ Z.of_nat n)%Z ∧
           at_ θ n = θ0 + (at_ t 1 - at_ t 0) * advance ω n + 2 * PI * IZR k.
Proof.
  intros Heq.
  apply euler_Ok_inv in Heq as (_ & _ & _ & _ & Eθ0 & _ & Hrec).
  cbn [fst snd] in *.
  induction n as [| n IH]; intros Hn.
  - exists 0%Z. split; [lia|]. cbn [advance]. rewrite Eθ0. lra.
  - destruct (IH ltac:(lia)) as (k & Hk & Hθn).
    destruct (Hrec n ltac:(lia)) as [_ Hθ].
    destruct (wrap_shift (at_ θ n + (at_ t 1 - at_ t 0) * at_ ω (n + 1)))
      as (j & Hj & Hwrap).
    exists (k + j)%Z. split; [lia|].
    replace (S n) with (n + 1)%nat by lia.
    rewrite Hθ, Hwrap, Hθn, plus_IZR.
    replace (n + 1)%nat with (S n) at 2 by lia. cbn [advance]. lra.
Qed.

(** The step that goes over the top: the unwrapped angle is 0 + 1·4, the
    stored angle is 4 − 2π, and the number of turns is k = −1. *)
Lemma euler_angle_up_to_turns_witness :
  ∃ θ ω, euler g_std [0; 1; 2] 1.2 g_std 0 8 0.5 (2 / 3) = Ok (θ, ω) ∧
         (1 < length [0; 1; 2])%nat ∧
         advance ω 1 = 4 ∧ at_ θ 1 = 4 - 2 * PI ∧
         ∃ k : Z, k = (-1)%Z ∧
                  (- Z.of_nat 1 ≤ k ≤ Z.of_nat 1)%Z ∧
                  at_ θ 1 = 0 + (at_ [0; 1; 2] 1 - at_ [0; 1; 2] 0)
                                * advance ω 1 + 2 * PI * IZR k.
Proof.
  assert (HN : (2 ≤ length [0; 1; 2])%nat) by (cbn [length]; lia).
  assert (Hℓ : g_std ≠ 0) by (unfold g_std; lra).
  pose proof PI_RGT_0 as Hπ.
  destruct (euler_returns g_std [0; 1; 2] 1.2 g_std 0 8 0.5 (2 / 3) Hℓ HN)
    as (θ & ω & Heq & _).
  destruct (euler_kick θ ω Heq) as (_ & _ & Eω1 & Eθ1 & _).
  assert (Hn : (1 < length [0; 1; 2])%nat) by (cbn [length]; lia).
  assert (Hadv : advance ω 1 = 4) by (cbn [advance Nat.add]; rewrite Eω1; lra).
  exists θ, ω. split; [exact Heq|]. split; [exact Hn|].
  split; [exact Hadv|]. split; [exact Eθ1|].
  destruct (euler_angle_up_to_turns g_std [0; 1; 2] 1.2 g_std 0 8 0.5 (2 / 3)
              θ ω 1 Heq Hn) as (k & Hk & Hθ).
  exists k. split; [|split; [exact Hk | exact Hθ]].
  rewrite Eθ1, Hadv in Hθ. unfold at_ in Hθ. cbn [nth] in Hθ.
  assert (Hk1 : IZR k = IZR (-1)) by nra.
  now apply eq_IZR in Hk1.
Defined.

(** ** The pendulum at rest *)

Lemma wrap_0 : wrap 0 = 0.
Proof. apply wrap_mid. pose proof PI_RGT_0. lra. Qed.

(** X7: hanging at rest without driving force (θ0 = 0, ω0 = 0, F_D = 0),
    the pendulum stays at rest: on every grid of at least two points and
    for ℓ ≠ 0, whatever the damping, [euler] returns two arrays of
    zeros. *)
Theorem euler_rest (g : R) (t : array) (ℓ γ ΩD : R) :
  (2 ≤ length t)%nat → ℓ ≠ 0 →
  euler g t 0 ℓ 0 0 γ ΩD = Ok (zeros_like t, zeros_like t).
Proof.
  intros HN Hℓ.
  destruct (euler_returns g t 0 ℓ 0 0 γ ΩD Hℓ HN)
    as (θ & ω & Heq & Lθ & Lω & Eθ0 & Eω0 & Hrec).
  cbn [fst snd] in *. rewrite Heq.
  assert (Hzero : ∀ n, (n < length t)%nat → at_ θ n = 0 ∧ at_ ω n = 0).
  { induction n as [| n IH]; intros Hn; [now split|].
    destruct (IH ltac:(lia)) as [Hθn Hωn].
    destruct (Hrec n ltac:(lia)) as [Hω Hθ].
    replace (S n) with (n + 1)%nat by lia.
    assert (Eω : at_ ω (n + 1) = 0).
    { rewrite Hω, Hθn, Hωn, sin_0. ring. }
    split; [|exact Eω]. rewrite Hθ, Hθn, Eω.
    replace (0 + (at_ t 1 - at_ t 0) * 0) with 0 by ring. exact wrap_0. }
  assert (Lz : length (zeros_like t) = length t)
    by (unfold zeros_like; apply length_replicate).
  f_equal. f_equal.
  - apply nth_ext with (d := 0) (d' := 0); [congruence|].
    intros n Hn. fold (at_ θ n). fold (at_ (zeros_like t) n).
    rewrite at_zeros_like. apply Hzero. lia.
  - apply nth_ext with (d := 0) (d' := 0); [congruence|].
    intros n Hn. fold (at_ ω n). fold (at_ (zeros_like t) n).
    rewrite at_zeros_like. apply Hzero. lia.
Qed.

Lemma euler_rest_witness :
  (2 ≤ length [0; 1; 2])%nat ∧ 1 ≠ 0 ∧
  euler g_std [0; 1; 2] 0 1 0 0 0.5 1 = Ok ([0; 0; 0], [0; 0; 0]).
Proof.
  assert (HN : (2 ≤ length [0; 1; 2])%nat) by (cbn [length]; lia).
  assert (Hℓ : 1 ≠ 0) by lra.
  split; [exact HN|]. split; [exact Hℓ|].
  exact (euler_rest g_std [0; 1; 2] 1 0.5 1 HN Hℓ).
Defined.

(** ** The first cell's loop *)

Lemma euler_cromer_body_eq (g ℓ Δt : R) (n : nat) (θ ω : array) :
  ℓ ≠ 0 → (n + 1 < length θ)%nat → (n + 1 < length ω)%nat →
  euler_cromer_body g ℓ Δt n (θ, ω) =
    Ok (<[(n + 1)%nat := at_ θ n + at_ ω n * Δt]> θ,
        <[(n + 1)%nat := at_ ω n - g / ℓ * sin (at_ θ n + at_ ω n * Δt) * Δt]> ω).
Proof.
  intros Hℓ Hθ Hω. unfold euler_cromer_body, py_div.
  destruct (Req_dec_T ℓ 0) as [E | _]; [contradiction|].
  rewrite (getitem_lt θ n) by lia. run.
  rewrite (getitem_lt ω n) by lia. run.
  rewrite setitem_lt by lia. run.
  rewrite getitem_lt by (rewrite length_insert; lia). run.
  rewrite at_insert_eq by lia.
  rewrite setitem_lt by lia. run. reflexivity.
Qed.

Lemma euler_cromer_body_zero_length (g Δt : R) (n : nat) (θ ω : array) :
  (n + 1 < length θ)%nat → (n < length ω)%nat →
  euler_cromer_body g 0 Δt n (θ, ω) = Raise ZeroDivisionError.
Proof.
  intros Hθ Hω. unfold euler_cromer_body, py_div.
  rewrite (getitem_lt θ n) by lia. run.
  rewrite (getitem_lt ω n) by lia. run.
  rewrite setitem_lt by lia. run.
  destruct (Req_dec_T 0 0) as [_ | H]; [reflexivity | contradiction].
Qed.

Lemma euler_cromer_body_inv (g : R) (t : array) (ℓ Δt θinit : R) (k : nat)
    (s : array * array) :
  ℓ ≠ 0 → (k + 1 < length t)%nat →
  euler_cromer_inv g t ℓ Δt θinit k s →
  ∃ s', euler_cromer_body g ℓ Δt k s = Ok s' ∧
        euler_cromer_inv g t ℓ Δt θinit (k + 1) s'.
Proof.
  intros Hℓ Hk. destruct s as [θ ω]. unfold euler_cromer_inv. cbn [fst snd].
  intros (Lθ & Lω & Hθ0 & Hω0 & Hrec).
  eexists. split.
  { apply euler_cromer_body_eq; [assumption | lia | lia]. }
  cbn [fst snd]. rewrite !length_insert.
  repeat split; try assumption.
  - rewrite at_insert_ne by lia. assumption.
  - rewrite at_insert_ne by lia. assumption.
  - destruct (decide (n = k)) as [-> | Hne].
    + rewrite at_insert_eq by lia. rewrite !at_insert_ne by lia. reflexivity.
    + destruct (Hrec n ltac:(lia)) as [Hθ _].
      rewrite !at_insert_ne by lia. exact Hθ.
  - destruct (decide (n = k)) as [-> | Hne].
    + rewrite !at_insert_eq by lia. rewrite !at_insert_ne by lia. reflexivity.
    + destruct (Hrec n ltac:(lia)) as [_ Hω].
      rewrite !at_insert_ne by lia. exact Hω.
Qed.

Lemma euler_cromer_loop_inv (g : R) (t : array) (ℓ Δt θinit : R) (k : nat) :
  ℓ ≠ 0 →
  ∀ (a : nat) (s : array * array),
    (a + k < length t)%nat →
    euler_cromer_inv g t ℓ Δt θinit a s →
    ∃ s', for_loop (seq a k) (euler_cromer_body g ℓ Δt) s = Ok s' ∧
          euler_cromer_inv g t ℓ Δt θinit (a + k) s'.
Proof.
  intros Hℓ. induction k as [| k IH]; intros a s Hak Hinv.
  - exists s. split; [reflexivity|]. now rewrite Nat.add_0_r.
  - destruct (euler_cromer_body_inv g t ℓ Δt θinit a s Hℓ ltac:(lia) Hinv)
      as (s1 & Hbody & Hinv1).
    destruct (IH (a + 1)%nat s1 ltac:(lia) Hinv1) as (s2 & Hloop & Hinv2).
    exists s2. split.
    + cbn [seq for_loop]. rewrite Hbody, bind_Ok.
      now replace (S a) with (a + 1)%nat by lia.
    + now replace (a + S k)%nat with (a + 1 + k)%nat by lia.
Qed.

Lemma euler_cromer_returns (g : R) (t : array) (ℓ Δt θinit : R) :
  ℓ ≠ 0 → (1 ≤ length t)%nat →
  ∃ θ ω, euler_cromer g t ℓ Δt θinit = Ok (θ, ω) ∧
         euler_cromer_inv g t ℓ Δt θinit (length t - 1) (θ, ω).
Proof.
  intros Hℓ HN. unfold euler_cromer. cbv zeta.
  assert (Lz : length (zeros_like t) = length t)
    by (unfold zeros_like; apply length_replicate).
  rewrite setitem_lt by lia. run.
  destruct (euler_cromer_loop_inv g t ℓ Δt θinit (length t - 1) Hℓ 0%nat
              (<[0%nat := θinit]> (zeros_like t), zeros_like t))
    as ([θ ω] & Hloop & Hinv).
  - lia.
  - unfold euler_cromer_inv. cbn [fst snd]. rewrite !length_insert.
    repeat split; try assumption; try lia.
    + apply at_insert_eq. lia.
    + apply at_zeros_like.
  - exists θ, ω. split; [exact Hloop | exact Hinv].
Qed.

(** X8: on a grid of N ≥ 1 points and for ℓ ≠ 0 the first cell's loop
    returns two arrays of length N with θ[0] the initial angle and
    ω[0] = 0, and for every n in 0..N−2 it computes the new angle from the
    old velocity, θ[n+1] = θ[n] + ω[n]·Δt, and then the new velocity from
    the new angle, ω[n+1] = ω[n] − (g/ℓ)·sin(θ[n+1])·Δt; the angle is not
    wrapped. *)
Theorem euler_cromer_steps (g : R) (t : array) (ℓ Δt θinit : R) :
  (1 ≤ length t)%nat → ℓ ≠ 0 →
  ∃ θ ω, euler_cromer g t ℓ Δt θinit = Ok (θ, ω) ∧
         length θ = length t ∧ length ω = length t ∧
         at_ θ 0 = θinit ∧ at_ ω 0 = 0 ∧
         ∀ n, (n + 1 < length t)%nat →
           at_ θ (n + 1) = at_ θ n + at_ ω n * Δt ∧
           at_ ω (n + 1) = at_ ω n - g / ℓ * sin (at_ θ (n + 1)) * Δt.
Proof.
  intros HN Hℓ.
  destruct (euler_cromer_returns g t ℓ Δt θinit Hℓ HN)
    as (θ & ω & Heq & Lθ & Lω & Hθ0 & Hω0 & Hrec).
  cbn [fst snd] in *. exists θ, ω. repeat split; try assumption.
  - apply (Hrec n). lia.
  - apply (Hrec n). lia.
Qed.

Lemma euler_cromer_steps_witness :
  (1 ≤ length [0; 1; 2])%nat ∧ 0.25 ≠ 0 ∧
  ∃ θ ω, euler_cromer g_std [0; 1; 2] 0.25 0.001 (PI / 4) = Ok (θ, ω) ∧
         length θ = 3%nat ∧ length ω = 3%nat ∧
         at_ θ 0 = PI / 4 ∧ at_ ω 0 = 0 ∧
         ∀ n, (n + 1 < 3)%nat →
           at_ θ (n + 1) = at_ θ n + at_ ω n * 0.001 ∧
           at_ ω (n + 1) =
             at_ ω n - g_std / 0.25 * sin (at_ θ (n + 1)) * 0.001.
Proof.
  assert (HN : (1 ≤ length [0; 1; 2])%nat) by (cbn [length]; lia).
  assert (Hℓ : 0.25 ≠ 0) by lra.
  split; [exact HN|]. split; [exact Hℓ|].
  exact (euler_cromer_steps g_std [0; 1; 2] 0.25 0.001 (PI / 4) HN Hℓ).
Defined.

(** X9: the edges of the first cell's loop.  On an empty grid the
    assignment of θ[0] raises [IndexError]; on a grid of one point the
    loop body never runs and the initial state is returned, whatever ℓ;
    on a grid of at least two points with ℓ = 0 the first iteration raises
    [ZeroDivisionError] at [g/ℓ]. *)
Theorem euler_cromer_edges (g : R) (t : array) (ℓ Δt θinit : R) :
  (length t = 0%nat → euler_cromer g t ℓ Δt θinit = Raise IndexError) ∧
  (length t = 1%nat → euler_cromer g t ℓ Δt θinit = Ok ([θinit], [0])) ∧
  ((2 ≤ length t)%nat →
   euler_cromer g t 0 Δt θinit = Raise ZeroDivisionError).
Proof.
  assert (Lz : length (zeros_like t) = length t)
    by (unfold zeros_like; apply length_replicate).
  split; [|split].
  - intros H0. unfold euler_cromer, setitem. cbv zeta. rewrite Lz, H0.
    reflexivity.
  - intros H1. unfold euler_cromer, zeros_like. rewrite H1. reflexivity.
  - intros HN. unfold euler_cromer. cbv zeta.
    rewrite setitem_lt by lia. run.
    destruct (length t) as [| [| N]] eqn:EN; [lia | lia |].
    replace (S (S N) - 1)%nat with (S N) by lia.
    unfold range. cbn [seq for_loop].
    rewrite euler_cromer_body_zero_length
      by (rewrite ?length_insert; lia).
    reflexivity.
Qed.

Lemma euler_cromer_edges_witness :
  euler_cromer g_std [] 0.25 0.001 (PI / 4) = Raise IndexError ∧
  euler_cromer g_std [7] 0 0.001 (PI / 4) = Ok ([PI / 4], [0]) ∧
  euler_cromer g_std [0; 1] 0 0.001 (PI / 4) = Raise ZeroDivisionError.
Proof.
  split; [|split].
  - apply (proj1 (euler_cromer_edges g_std [] 0.25 0.001 (PI / 4))).
    reflexivity.
  - apply (proj1 (proj2 (euler_cromer_edges g_std [7] 0 0.001 (PI / 4)))).
    reflexivity.
  - apply (proj2 (proj2 (euler_cromer_edges g_std [0; 1] 0 0.001 (PI / 4)))).
    cbn [length]. lia.
Defined.

Lemma sin_turns (x : R) (k : Z) : sin (x + 2 * PI * IZR k) = sin x.
Proof.
  destruct (Z_le_gt_dec 0 k) as [Hk | Hk].
  - rewrite <- (Z2Nat.id k Hk), <- INR_IZR_INZ.
    rewrite <- (sin_period x (Z.to_nat k)). f_equal. ring.
  - rewrite <- (sin_period (x + 2 * PI * IZR k) (Z.to_nat (- k))).
    f_equal. rewrite INR_IZR_INZ, Z2Nat.id, opp_IZR by lia. ring.
Qed.

(** X10: the first cell's loop is odd in the initial angle: starting from
    −θ[0] instead of θ[0] negates every angle and every velocity of the
    run. *)
Theorem euler_cromer_odd (g : R) (t : array) (ℓ Δt θinit : R) :
  (1 ≤ length t)%nat → ℓ ≠ 0 →
  ∃ θ ω, euler_cromer g t ℓ Δt θinit = Ok (θ, ω) ∧
         euler_cromer g t ℓ Δt (- θinit) = Ok (map Ropp θ, map Ropp ω).
Proof.
  intros HN Hℓ.
  destruct (euler_cromer_returns g t ℓ Δt θinit Hℓ HN)
    as (θ & ω & Heq & Lθ & Lω & Hθ0 & Hω0 & Hrec).
  destruct (euler_cromer_returns g t ℓ Δt (- θinit) Hℓ HN)
    as (θ' & ω' & Heq' & Lθ' & Lω' & Hθ0' & Hω0' & Hrec').
  cbn [fst snd] in *. exists θ, ω. split; [exact Heq|]. rewrite Heq'.
  assert (Hneg : ∀ n, (n < length t)%nat →
                      at_ θ' n = - at_ θ n ∧ at_ ω' n = - at_ ω n).
  { induction n as [| n IH]; intros Hn.
    - rewrite Hθ0, Hθ0', Hω0, Hω0'. split; lra.
    - destruct (IH ltac:(lia)) as [Eθ Eω].
      destruct (Hrec n ltac:(lia)) as [Hθ Hω].
      destruct (Hrec' n ltac:(lia)) as [Hθ' Hω'].
      replace (S n) with (n + 1)%nat by lia.
      assert (E : at_ θ' (n + 1) = - at_ θ (n + 1))
        by (rewrite Hθ, Hθ', Eθ, Eω; ring).
      split; [exact E|]. rewrite Hω, Hω', E, Eω, sin_neg. ring. }
  f_equal. f_equal.
  - apply nth_ext with (d := 0) (d' := - 0);
      [rewrite length_map; congruence|].
    intros n Hn. rewrite (map_nth Ropp). apply (Hneg n). lia.
  - apply nth_ext with (d := 0) (d' := - 0);
      [rewrite length_map; congruence|].
    intros n Hn. rewrite (map_nth Ropp). apply (Hneg n). lia.
Qed.

Lemma euler_cromer_odd_witness :
  (1 ≤ length [0; 1; 2])%nat ∧ 0.25 ≠ 0 ∧
  ∃ θ ω, euler_cromer g_std [0; 1; 2] 0.25 0.001 (PI / 4) = Ok (θ, ω) ∧
         euler_cromer g_std [0; 1; 2] 0.25 0.001 (- (PI / 4))
         = Ok (map Ropp θ, map Ropp ω).
Proof.
  assert (HN : (1 ≤ length [0; 1; 2])%nat) by (cbn [length]; lia).
  assert (Hℓ : 0.25 ≠ 0) by lra.
  split; [exact HN|]. split; [exact Hℓ|].
  exact (euler_cromer_odd g_std [0; 1; 2] 0.25 0.001 (PI / 4) HN Hℓ).
Defined.

(** X11: the two integrators agree on the undamped, undriven pendulum
    released from rest.  With γ = 0, F_D = 0, ω0 = 0 and the step
    Δt = t[1] − t[0], [euler] computes the same velocity array as the
    first cell's loop, and its angle array is the first cell's one step
    ahead, up to whole turns: θ'[n] = θ[n+1] + 2πk. *)
Theorem euler_matches_euler_cromer (g : R) (t : array) (ℓ θinit ΩD : R)
    (θ ω θ' ω' : array) :
  euler_cromer g t ℓ (at_ t 1 - at_ t 0) θinit = Ok (θ, ω) →
  euler g t 0 ℓ θinit 0 0 ΩD = Ok (θ', ω') →
  ∀ n, (n < length t)%nat →
    at_ ω' n = at_ ω n ∧
    ((n + 1 < length t)%nat →
     ∃ k : Z, at_ θ' n = at_ θ (n + 1) + 2 * PI * IZR k).
Proof.
  intros Hc He.
  apply euler_Ok_inv in He as (HN & Hℓ & _ & _ & Hθ0' & Hω0' & Hrec').
  destruct (euler_cromer_returns g t ℓ (at_ t 1 - at_ t 0) θinit Hℓ
              ltac:(lia)) as (θc & ωc & Hc' & _ & _ & Hθ0 & Hω0 & Hrec).
  rewrite Hc in Hc'. injection Hc' as <- <-. cbn [fst snd] in *.
  set (Δt := at_ t 1 - at_ t 0) in *.
  induction n as [| n IH]; intros Hn.
  - split; [congruence|]. intros H1. exists 0%Z.
    destruct (Hrec 0%nat ltac:(lia)) as [Hθ1 _]. cbn [Nat.add] in *.
    rewrite Hθ1, Hθ0, Hω0, Hθ0'. lra.
  - destruct (IH ltac:(lia)) as [Eω Hturn].
    destruct (Hturn ltac:(lia)) as (k & Eθ).
    destruct (Hrec' n ltac:(lia)) as [Hω' Hθ'].
    destruct (Hrec n ltac:(lia)) as [_ Hω].
    replace (S n) with (n + 1)%nat by lia.
    assert (E : at_ ω' (n + 1) = at_ ω (n + 1)).
    { rewrite Hω', Hω, Eθ, sin_turns, Eω. ring. }
    split; [exact E|]. intros Hn2.
    destruct (wrap_shift (at_ θ' n + Δt * at_ ω' (n + 1))) as (j & _ & Hw).
    destruct (Hrec (n + 1)%nat ltac:(lia)) as [Hθ2 _].
    exists (k + j)%Z. rewrite Hθ', Hw, Eθ, E, Hθ2, plus_IZR. ring.
Qed.

Lemma euler_matches_euler_cromer_witness :
  ∃ θ ω θ' ω',
    euler_cromer g_std [0; 1; 2] 1 (at_ [0; 1; 2] 1 - at_ [0; 1; 2] 0) 0.2
      = Ok (θ, ω) ∧
    euler g_std [0; 1; 2] 0 1 0.2 0 0 1 = Ok (θ', ω') ∧
    ∀ n, (n < length [0; 1; 2])%nat →
      at_ ω' n = at_ ω n ∧
      ((n + 1 < length [0; 1; 2])%nat →
       ∃ k : Z, at_ θ' n = at_ θ (n + 1) + 2 * PI * IZR k).
Proof.
  assert (HN : (2 ≤ length [0; 1; 2])%nat) by (cbn [length]; lia).
  assert (Hℓ : 1 ≠ 0) by lra.
  destruct (euler_cromer_returns g_std [0; 1; 2] 1
              (at_ [0; 1; 2] 1 - at_ [0; 1; 2] 0) 0.2 Hℓ
              ltac:(cbn [length]; lia))
    as (θ & ω & Hc & _).
  destruct (euler_returns g_std [0; 1; 2] 0 1 0.2 0 0 1 Hℓ HN)
    as (θ' & ω' & He & _).
  exists θ, ω, θ', ω'. split; [exact Hc|]. split; [exact He|].
  exact (euler_matches_euler_cromer g_std [0; 1; 2] 1 0.2 1 θ ω θ' ω' Hc He).
Defined.

(** ** The divergence of two neighbouring runs *)

Lemma at_zip_with_minus (a b : array) (n : nat) :
  (n < length a)%nat → (n < length b)%nat →
  at_ (zip_with Rminus a b) n = at_ a n - at_ b n.
Proof.
  unfold at_. revert b n. induction a as [| x a IH]; intros [| y b] n Ha Hb;
    cbn [length] in *; try lia.
  destruct n as [| n]; [reflexivity|]. cbn [zip_with nth]. apply IH; lia.
Qed.

Lemma np_sub_same_length (a b : array) :
  length a = length b → np_sub a b = Ok (zip_with Rminus a b).
Proof.
  intros Hlen. unfold np_sub. destruct (decide (length a = length b));
    [reflexivity | contradiction].
Qed.

(** X12: for every grid of at least two points and ℓ ≠ 0, a pass of the
    loop that fills Δθ returns an array of the length of the grid whose
    entries are |θ1[n] − θ2[n]| for the runs from θ0 and from θ0 + 1.0E-4;
    the subtraction never fails on mismatched shapes, and the first entry
    is the perturbation 1.0E-4 itself. *)
Theorem divergence_entries (g : R) (t : array) (FD ℓ θ0 ω0 γ ΩD : R) :
  (2 ≤ length t)%nat → ℓ ≠ 0 →
  ∃ θ1 ω1 θ2 ω2 Δθ,
    euler g t FD ℓ θ0 ω0 γ ΩD = Ok (θ1, ω1) ∧
    euler g t FD ℓ (θ0 + 1.0E-4) ω0 γ ΩD = Ok (θ2, ω2) ∧
    divergence g t FD ℓ θ0 ω0 γ ΩD = Ok Δθ ∧
    length Δθ = length t ∧
    (∀ n, (n < length t)%nat → at_ Δθ n = Rabs (at_ θ1 n - at_ θ2 n)) ∧
    at_ Δθ 0 = 1.0E-4.
Proof.
  intros HN Hℓ.
  destruct (euler_returns g t FD ℓ θ0 ω0 γ ΩD Hℓ HN)
    as (θ1 & ω1 & H1 & L1 & _ & E1 & _).
  destruct (euler_returns g t FD ℓ (θ0 + 1.0E-4) ω0 γ ΩD Hℓ HN)
    as (θ2 & ω2 & H2 & L2 & _ & E2 & _).
  cbn [fst snd] in *.
  assert (Hentry : ∀ n, (n < length t)%nat →
            at_ (np_abs (zip_with Rminus θ1 θ2)) n
            = Rabs (at_ θ1 n - at_ θ2 n)).
  { intros n Hn. unfold np_abs, at_ at 1.
    replace 0 with (Rabs 0) at 1 by apply Rabs_R0.
    rewrite (map_nth Rabs). fold (at_ (zip_with Rminus θ1 θ2) n).
    rewrite at_zip_with_minus by lia. reflexivity. }
  exists θ1, ω1, θ2, ω2, (np_abs (zip_with Rminus θ1 θ2)).
  split; [exact H1|]. split; [exact H2|]. split; [|split; [|split]].
  - unfold divergence. rewrite H1, H2. run. cbn [fst].
    rewrite np_sub_same_length by congruence. reflexivity.
  - unfold np_abs. rewrite length_map, length_zip_with. lia.
  - exact Hentry.
  - rewrite Hentry by lia. rewrite E1, E2.
    unfold Rabs. destruct (Rcase_abs (θ0 - (θ0 + 1.0E-4))); lra.
Qed.

Lemma divergence_entries_witness :
  (2 ≤ length [0; 1; 2])%nat ∧ 1 ≠ 0 ∧
  ∃ θ1 ω1 θ2 ω2 Δθ,
    euler g_std [0; 1; 2] 1.2 1 0.2 0 0.5 1 = Ok (θ1, ω1) ∧
    euler g_std [0; 1; 2] 1.2 1 (0.2 + 1.0E-4) 0 0.5 1 = Ok (θ2, ω2) ∧
    divergence g_std [0; 1; 2] 1.2 1 0.2 0 0.5 1 = Ok Δθ ∧
    length Δθ = length [0; 1; 2] ∧
    (∀ n, (n < length [0; 1; 2])%nat →
          at_ Δθ n = Rabs (at_ θ1 n - at_ θ2 n)) ∧
    at_ Δθ 0 = 1.0E-4.
Proof.
  assert (HN : (2 ≤ length [0; 1; 2])%nat) by (cbn [length]; lia).
  assert (Hℓ : 1 ≠ 0) by lra.
  split; [exact HN|]. split; [exact Hℓ|].
  exact (divergence_entries g_std [0; 1; 2] 1.2 1 0.2 0 0.5 1 HN Hℓ).
Defined.

(** ** The bifurcation table *)

(** A loop that returns has read [longt[1]]. *)
Lemma inPhase_Done_length (fuel : nat) (longt : array) (ΩD : R) (l : list Z) :
  inPhase fuel longt ΩD = Done l → (2 ≤ length longt)%nat.
Proof.
  intros Hrun. destruct (le_lt_dec 2 (length longt)) as [H | H]; [exact H|].
  exfalso. unfold inPhase in Hrun. destruct fuel as [| fuel]; [discriminate|].
  cbn [inPhase_loop] in Hrun.
  rewrite inPhase_index_short in Hrun by exact H. discriminate.
Qed.

Lemma sweep_columns (g : R) (longt : array) (ℓ θ0 ω0 γ ΩD : R)
    (idx : list Z) (F : list R) :
  (2 ≤ length longt)%nat → ℓ ≠ 0 →
  Forall (λ m, 0 ≤ m < Z.of_nat (length longt))%Z (drop 10 idx) →
  ∀ (i : nat) (θ : table),
    nrows θ = length (drop 10 idx) →
    (i + length F ≤ length (columns θ))%nat →
    ∃ θ', sweep g longt ℓ θ0 ω0 γ ΩD idx i F θ = Ok θ' ∧
          nrows θ' = nrows θ ∧
          length (columns θ') = length (columns θ) ∧
          (∀ j, (j < i)%nat → columns θ' !! j = columns θ !! j) ∧
          ∀ k cF, F !! k = Some cF →
            ∃ th w, euler g longt cF ℓ θ0 ω0 γ ΩD = Ok (th, w) ∧
                    columns θ' !! (i + k)%nat =
                    Some (map (λ m, at_ th (Z.to_nat m)) (drop 10 idx)).
Proof.
  intros HN Hℓ Hidx. induction F as [| cF F IH]; intros i θ Hrows Hcols.
  - exists θ. repeat split; try reflexivity. intros k cF Hk. discriminate.
  - cbn [length] in Hcols. cbn [sweep].
    destruct (euler_returns g longt cF ℓ θ0 ω0 γ ΩD Hℓ HN)
      as (th & w & Heq & Lth & _).
    cbn [fst snd] in Lth. rewrite Heq. run. cbn [fst].
    rewrite take_indices_in_bounds by (rewrite Lth; exact Hidx). run.
    set (col := map (λ m, at_ th (Z.to_nat m)) (drop 10 idx)).
    assert (Hset : set_column θ i col
                   = Ok (Table (nrows θ) (<[i := col]> (columns θ)))).
    { unfold set_column.
      destruct (Nat.ltb_spec i (length (columns θ))) as [_ | H]; [|lia].
      destruct (decide (length col = nrows θ)) as [_ | H]; [reflexivity|].
      exfalso. apply H. unfold col. rewrite length_map. congruence. }
    rewrite Hset. run.
    destruct (IH (i + 1)%nat (Table (nrows θ) (<[i := col]> (columns θ))))
      as (θ' & Hsweep & Hr & Hc & Hbefore & Hfilled).
    { exact Hrows. }
    { cbn [columns]. rewrite length_insert. lia. }
    cbn [nrows columns] in *. rewrite length_insert in Hc.
    exists θ'. split; [exact Hsweep|]. split; [exact Hr|].
    split; [exact Hc|]. split.
    + intros j Hj. rewrite Hbefore by lia.
      apply list_lookup_insert_ne. lia.
    + intros [| k] cF' Hk.
      * injection Hk as <-. exists th, w. split; [exact Heq|].
        rewrite Nat.add_0_r, Hbefore by lia.
        apply list_lookup_insert_eq. lia.
      * destruct (Hfilled k cF' Hk) as (th' & w' & Heq' & Hcol).
        exists th', w'. split; [exact Heq'|].
        now replace (i + S k)%nat with (i + 1 + k)%nat by lia.
Qed.

(** X13: fed with the list of in-phase indices that the loop returns, the
    bifurcation sweep (with [run] set and ℓ ≠ 0) never fails: every index
    is valid in every trajectory and every column has the shape of the
    table.  The table has len(inPhase) − 10 rows and one column per value
    of F, and column i holds the angles of the run with driving force F[i]
    at the in-phase indices after the first ten. *)
Theorem bifurcation_table (g : R) (fuel : nat) (longt : array)
    (ℓ θ0 ω0 γ ΩD : R) (l : list Z) (F : list R) :
  inPhase fuel longt ΩD = Done l → ℓ ≠ 0 →
  ∃ θ, bifurcation g true longt ℓ θ0 ω0 γ ΩD l F = Ok (Some θ) ∧
       nrows θ = (length l - 10)%nat ∧
       length (columns θ) = length F ∧
       ∀ i cF, F !! i = Some cF →
         ∃ th w, euler g longt cF ℓ θ0 ω0 γ ΩD = Ok (th, w) ∧
                 columns θ !! i =
                 Some (map (λ m, at_ th (Z.to_nat m)) (drop 10 l)).
Proof.
  intros Hrun Hℓ.
  pose proof (inPhase_Done_length fuel longt ΩD l Hrun) as HN.
  assert (Hidx : Forall (λ m, 0 ≤ m < Z.of_nat (length longt))%Z (drop 10 l))
    by (apply Forall_drop; exact (inPhase_Done_valid _ _ _ _ Hrun)).
  destruct (sweep_columns g longt ℓ θ0 ω0 γ ΩD l F HN Hℓ Hidx 0%nat
              (np_zeros2 (length (drop 10 l)) (length F)))
    as (θ & Hsweep & Hr & Hc & _ & Hfilled).
  { reflexivity. }
  { cbn [np_zeros2 columns]. rewrite length_replicate. lia. }
  assert (Hb : bifurcation g true longt ℓ θ0 ω0 γ ΩD l F = Ok (Some θ)).
  { unfold bifurcation. cbv zeta. rewrite Hsweep. reflexivity. }
  cbn [np_zeros2 nrows columns] in *. rewrite length_replicate in Hc.
  exists θ. split; [|split; [|split]].
  - exact Hb.
  - rewrite Hr. apply length_drop.
  - exact Hc.
  - intros i cF Hi. exact (Hfilled i cF Hi).
Qed.

(** The grid [0, 1, …, 13] sampled once per grid step (Ω_D = 2π): the
    twelve indices 2, …, 13. *)
Lemma inPhase_0_to_13 (fuel : nat) :
  (14 < fuel)%nat →
  inPhase fuel [0; 1; 2; 3; 4; 5; 6; 7; 8; 9; 10; 11; 12; 13] (2 * PI)
  = Done [2; 3; 4; 5; 6; 7; 8; 9; 10; 11; 12; 13]%Z.
Proof.
  intros Hfuel. pose proof PI_RGT_0 as Hπ.
  assert (Ht1 : at_ [0; 1; 2; 3; 4; 5; 6; 7; 8; 9; 10; 11; 12; 13] 1 = 1)
    by reflexivity.
  assert (Hidx : ∀ n, phase_index 1 (2 * PI) n = Z.of_nat n)
    by (intros n; apply phase_index_unit; lra).
  rewrite (inPhase_returns _ _ 14).
  - rewrite Ht1. unfold strobe. cbn [seq map length].
    rewrite !Hidx. reflexivity.
  - cbn [length]. lia.
  - rewrite Ht1. lra.
  - rewrite Ht1. cbn [length].
    apply first_overflow_succ; [lra | |]; rewrite Hidx; lia.
  - exact Hfuel.
Qed.

(** Twelve in-phase indices and two driving forces: after the first ten
    indices are dropped the table has the two rows of the indices 12 and
    13, and column i holds θ[12] and θ[13] of the run with F[i]. *)
Lemma bifurcation_table_witness :
  inPhase 15 [0; 1; 2; 3; 4; 5; 6; 7; 8; 9; 10; 11; 12; 13] (2 * PI)
  = Done [2; 3; 4; 5; 6; 7; 8; 9; 10; 11; 12; 13]%Z ∧
  g_std ≠ 0 ∧
  ∃ θ, bifurcation g_std true [0; 1; 2; 3; 4; 5; 6; 7; 8; 9; 10; 11; 12; 13]
         g_std 0.2 0 0.5 (2 * PI)
         [2; 3; 4; 5; 6; 7; 8; 9; 10; 11; 12; 13]%Z [0.5; 1.2]
       = Ok (Some θ) ∧
       nrows θ = 2%nat ∧ length (columns θ) = 2%nat ∧
       (∃ th w, euler g_std [0; 1; 2; 3; 4; 5; 6; 7; 8; 9; 10; 11; 12; 13]
                  0.5 g_std 0.2 0 0.5 (2 * PI) = Ok (th, w) ∧
                columns θ !! 0%nat = Some [at_ th 12; at_ th 13]) ∧
       (∃ th w, euler g_std [0; 1; 2; 3; 4; 5; 6; 7; 8; 9; 10; 11; 12; 13]
                  1.2 g_std 0.2 0 0.5 (2 * PI) = Ok (th, w) ∧
                columns θ !! 1%nat = Some [at_ th 12; at_ th 13]).
Proof.
  assert (Hrun : inPhase 15 [0; 1; 2; 3; 4; 5; 6; 7; 8; 9; 10; 11; 12; 13]
                   (2 * PI)
                 = Done [2; 3; 4; 5; 6; 7; 8; 9; 10; 11; 12; 13]%Z)
    by (apply inPhase_0_to_13; lia).
  assert (Hℓ : g_std ≠ 0) by (unfold g_std; lra).
  split; [exact Hrun|]. split; [exact Hℓ|].
  destruct (bifurcation_table g_std 15
              [0; 1; 2; 3; 4; 5; 6; 7; 8; 9; 10; 11; 12; 13]
              g_std 0.2 0 0.5 (2 * PI)
              [2; 3; 4; 5; 6; 7; 8; 9; 10; 11; 12; 13]%Z [0.5; 1.2] Hrun Hℓ)
    as (θ & Hb & Hr & Hc & Hcols).
  exists θ. split; [exact Hb|]. split; [exact Hr|]. split; [exact Hc|].
  split; [exact (Hcols 0%nat 0.5 eq_refl) | exact (Hcols 1%nat 1.2 eq_refl)].
Defined.

(** ** What the loop reads of the grid *)

Lemma inPhase_index_reads (longt longt' : array) (ΩD ΩD' : R) (n : nat) :
  length longt' = length longt →
  at_ longt' 1 * ΩD' = at_ longt 1 * ΩD →
  inPhase_index longt' ΩD' n = inPhase_index longt ΩD n.
Proof.
  intros Hlen Hprod. unfold inPhase_index.
  destruct (le_lt_dec 2 (length longt)) as [H | H].
  - rewrite (getitem_lt longt 1), (getitem_lt longt' 1) by lia. run.
    now rewrite Hprod.
  - now rewrite (getitem_ge longt 1), (getitem_ge longt' 1) by lia.
Qed.

(** X14: the loop reads nothing of the grid but its length and its second
    point, and depends on that point and on the frequency only through the
    product t[1]·Ω_D: two grids of one length sampled at frequencies with
    the same product give the same outcome (the same indices, the same
    exception or the same endless run), step for step. *)
Theorem inPhase_reads_product (fuel : nat) (longt longt' : array) (ΩD ΩD' : R) :
  length longt' = length longt →
  at_ longt' 1 * ΩD' = at_ longt 1 * ΩD →
  inPhase fuel longt' ΩD' = inPhase fuel longt ΩD.
Proof.
  intros Hlen Hprod. unfold inPhase. generalize 0%nat (@nil Z).
  induction fuel as [| fuel IH]; intros n acc; [reflexivity|].
  cbn [inPhase_loop].
  rewrite (inPhase_index_reads longt longt' ΩD ΩD' n Hlen Hprod), Hlen.
  destruct (inPhase_index longt ΩD n) as [m | e]; [|reflexivity].
  destruct ((1 <? m) && (m <? Z.of_nat (length longt)))%Z; [apply IH|].
  destruct (m >=? Z.of_nat (length longt))%Z; [reflexivity | apply IH].
Qed.

(** The grid [0, 2, 9, 9] sampled at Ω_D = π/2 gives what the grid
    [0, 1, 2, 3] gives at Ω_D = π. *)
Lemma inPhase_reads_product_witness :
  length [0; 2; 9; 9] = length [0; 1; 2; 3] ∧
  at_ [0; 2; 9; 9] 1 * (PI / 2) = at_ [0; 1; 2; 3] 1 * PI ∧
  inPhase 5 [0; 2; 9; 9] (PI / 2) = inPhase 5 [0; 1; 2; 3] PI.
Proof.
  assert (Hlen : length [0; 2; 9; 9] = length [0; 1; 2; 3]) by reflexivity.
  assert (Hprod : at_ [0; 2; 9; 9] 1 * (PI / 2) = at_ [0; 1; 2; 3] 1 * PI)
    by (unfold at_; cbn [nth]; lra).
  split; [exact Hlen|]. split; [exact Hprod|].
  exact (inPhase_reads_product 5 [0; 1; 2; 3] [0; 2; 9; 9] PI (PI / 2)
           Hlen Hprod).
Defined.
